(** * PicSec crypto core: a shallow embedding of [packages/crypto]

    The development follows the TypeScript sources of the package:
    - [seedPhrase.ts]: recovery phrase validation, normalisation, entropy
      extraction and the quiz positions;
    - [encrypt.ts]: the versioned secretbox payload ([encrypt], [decrypt]);
    - [keys.ts]: key derivation and the Base64 key validators;
    - [share.ts]: sender-authenticated key exchange and the batch grant;
    - [constants.ts]: the payload layout and the key lengths.

    JavaScript exceptions are values of [result]; the two random sources
    ([nacl.randomBytes] and [Math.random]) are explicit.  Strings are
    sequences of UTF-16 code units; the Unicode operations of the engine
    ([toLowerCase], [normalize]) are an interface ([Unicode]).  The
    third-party packages the code calls ([tweetnacl], [tweetnacl-util],
    [bip39]) are interfaces ([NaCl], [Util]) or, for [bip39], a
    transcription of its decoding routine over a wordlist that is a
    parameter; the algorithms of [tweetnacl] are given as one
    implementation of [NaCl]. *)

From Stdlib Require Import String Ascii Strings.Byte NArith ZArith Bool Arith Lia List.
From Stdlib Require Import Sorting.Sorted Sorting.Permutation.
From Stdlib Require Uint63.
Import ListNotations.

Set Implicit Arguments.

(* ================================================================== *)
(** * JavaScript values used by the package *)
(* ================================================================== *)

(** A [Uint8Array] is a list of bytes. *)
Definition bytes := list byte.

(** ** Exceptions

    Every [throw] of the package has its own constructor; the spec's error
    names are noted beside the German message of the source. *)
Inductive key_role : Type :=
  | SymmetricKey        (* 'Ungueltiger symmetrischer Key' / 'Ungueltiger Key: Muss 32 Bytes sein' *)
  | RecipientPublicKey  (* 'Ungueltiger Empfaenger Public Key' *)
  | SenderPrivateKey    (* 'Ungueltiger Sender Private Key' *)
  | SenderPublicKey     (* 'Ungueltiger Sender Public Key' *)
  | RecipientPrivateKey (* 'Ungueltiger Empfaenger Private Key' *)
  | PrivateKey.         (* 'Ungueltiger Private Key' *)

Inductive error : Type :=
  | InvalidEncoding                 (* TypeError('invalid encoding') of decodeBase64 *)
  | InvalidKey (r : key_role)       (* InvalidKey *)
  | PayloadTooShort                 (* 'Payload zu kurz' *)
  | UnknownVersion (v : option byte) (* 'Unbekannte Payload-Version: v'; None for undefined *)
  | UnsupportedVersion (v : byte)   (* 'Nicht unterstuetzte Payload-Version: v' *)
  | DecryptionFailed                (* 'Entschluesselung fehlgeschlagen: ...' *)
  | CorruptKey                      (* 'Entschluesselter Key hat falsche Laenge' *)
  | InvalidPhrase                   (* 'Ungueltige Seed Phrase' *)
  | OutOfRange                      (* 'Position muss zwischen 1 und 12 sein' *)
  | BadSecretKeySize                (* tweetnacl: 'bad secret key size' *)
  | RangeError                      (* TypedArray.prototype.set: offset out of bounds *)
  | Bip39Error.                     (* any Error thrown inside bip39 *)

Inductive result (A : Type) : Type :=
  | Ok (a : A)
  | Throw (e : error).

Arguments Ok {A} a.
Arguments Throw {A} e.

Definition bind {A B} (r : result A) (k : A -> result B) : result B :=
  match r with
  | Ok a => k a
  | Throw e => Throw e
  end.

(** [try { body } catch { handler }] *)
Definition try_catch {A} (body : result A) (handler : error -> result A) : result A :=
  match body with
  | Ok a => Ok a
  | Throw e => handler e
  end.

Declare Scope js_scope.
Delimit Scope js_scope with js.
Notation "'let*' x ':=' c 'in' k" := (bind c (fun x => k))
  (at level 61, x pattern, c at next level, right associativity) : js_scope.
Notation "'guard' b 'else' e 'in' k" := (if b then k else Throw e)
  (at level 61, b at next level, e at next level, right associativity) : js_scope.

(* ================================================================== *)
(** * Strings

    A JavaScript string is the sequence of its UTF-16 code units.  What
    [trim] strips and [\s] matches is the WhiteSpace and LineTerminator set
    of ECMAScript; [split] and [join] work on code units.  The two
    operations that take their meaning from the Unicode tables of the
    engine, [toLowerCase] and [normalize('NFKD')], are an interface
    ([Unicode]) with the laws the development uses ([UnicodeLaws]). *)
(* ================================================================== *)

Module JsString.
Local Open Scope N_scope.

Definition codeUnit : Type := N.

Definition jsstring : Type := list codeUnit.

(** The string of an ASCII literal. *)
Definition ofAscii (s : string) : jsstring := map N_of_ascii (list_ascii_of_string s).

(** [a === b] on strings. *)
Fixpoint eqb (a b : jsstring) : bool :=
  match a, b with
  | [], [] => true
  | x :: a', y :: b' => (x =? y) && eqb a' b'
  | _, _ => false
  end.

(** WhiteSpace and LineTerminator of ECMAScript: TAB, LF, VT, FF, CR, SPACE,
    U+00A0, U+1680, U+2000 to U+200A, U+2028, U+2029, U+202F, U+205F, U+3000
    and U+FEFF. *)
Definition isWhiteSpace (c : codeUnit) : bool :=
  ((9 <=? c) && (c <=? 13)) || (c =? 32) || (c =? 160) || (c =? 5760)
  || ((8192 <=? c) && (c <=? 8202)) || (c =? 8232) || (c =? 8233)
  || (c =? 8239) || (c =? 8287) || (c =? 12288) || (c =? 65279).

Fixpoint trimStart (s : jsstring) : jsstring :=
  match s with
  | [] => []
  | c :: s' => if isWhiteSpace c then trimStart s' else s
  end.

Fixpoint trimEnd (s : jsstring) : jsstring :=
  match s with
  | [] => []
  | c :: s' =>
      match trimEnd s' with
      | [] => if isWhiteSpace c then [] else [c]
      | t => c :: t
      end
  end.

(** [s.trim()] *)
Definition trim (s : jsstring) : jsstring := trimEnd (trimStart s).

(** Adds a code unit in front of the token under construction. *)
Definition consHead (c : codeUnit) (toks : list jsstring) : list jsstring :=
  match toks with
  | [] => [[c]]
  | t :: ts => (c :: t) :: ts
  end.

(** [s.split(/\s+/)]: the pieces between maximal runs of blanks.  The flag
    says that the code unit before was part of a separator. *)
Fixpoint splitWsFrom (inSep : bool) (s : jsstring) : list jsstring :=
  match s with
  | [] => [[]]
  | c :: s' =>
      if isWhiteSpace c
      then (if inSep then splitWsFrom true s' else [] :: splitWsFrom true s')
      else consHead c (splitWsFrom false s')
  end.

Definition splitWs (s : jsstring) : list jsstring := splitWsFrom false s.

(** [s.split(sep)] for a separator of one code unit. *)
Fixpoint splitChar (sep : codeUnit) (s : jsstring) : list jsstring :=
  match s with
  | [] => [[]]
  | c :: s' =>
      if c =? sep then [] :: splitChar sep s'
      else consHead c (splitChar sep s')
  end.

(** [parts.join(sep)] *)
Fixpoint join (sep : jsstring) (parts : list jsstring) : jsstring :=
  match parts with
  | [] => []
  | [p] => p
  | p :: rest => p ++ sep ++ join sep rest
  end.

(** The separator [' ']. *)
Definition space : codeUnit := 32.

(** ** The Unicode operations of the engine *)

Class Unicode : Type := {
  (** [s.toLowerCase()] *)
  toLowerCase : jsstring -> jsstring;
  (** [s.normalize('NFKD')] *)
  normalizeNFKD : jsstring -> jsstring
}.

Definition isAscii (s : jsstring) : bool := forallb (fun c => c <? 128) s.

(** Lower case of an ASCII code unit: [A] to [Z] move by 32. *)
Definition asciiLower (c : codeUnit) : codeUnit :=
  if (65 <=? c) && (c <=? 90) then c + 32 else c.

(** What the development uses of the two operations.  On ASCII strings
    they are known: the letters [A] to [Z] are lowered one by one, and
    NFKD changes nothing.  On all strings, lower-casing is idempotent; it
    works on either side of a SPACE separately (the one rule of
    [toLowerCase] that looks at the context, final sigma, does not look
    past a SPACE); the pieces between the blanks of a string that
    lower-casing leaves alone are left alone too; and lower-casing puts no
    blank at either end of a string that has none there. *)
Class UnicodeLaws (E : Unicode) : Prop := {
  toLowerCase_ascii : forall s, isAscii s = true -> toLowerCase s = map asciiLower s;
  normalizeNFKD_ascii : forall s, isAscii s = true -> normalizeNFKD s = s;
  toLowerCase_idempotent : forall s, toLowerCase (toLowerCase s) = toLowerCase s;
  toLowerCase_space : forall a b,
    toLowerCase (a ++ space :: b) = toLowerCase a ++ space :: toLowerCase b;
  toLowerCase_pieces : forall s,
    toLowerCase s = s -> Forall (fun t => toLowerCase t = t) (splitWs s);
  toLowerCase_trimmed : forall s, trim s = s -> trim (toLowerCase s) = toLowerCase s
}.

End JsString.

(** [l] cut into pieces of [size] elements, the last one possibly shorter
    (the matches of [/(.{1,size})/g]); [fuel] bounds the number of pieces. *)
Fixpoint chunks {A} (fuel size : nat) (l : list A) : list (list A) :=
  match fuel with
  | O => []
  | S f =>
      match l with
      | [] => []
      | _ => firstn size l :: chunks f size (skipn size l)
      end
  end.

Definition byteOfN (n : N) : byte :=
  match Byte.of_N n with
  | Some b => b
  | None => x00
  end.

(* ================================================================== *)
(** * SHA-256 (FIPS 180-4)

    [bip39] takes the checksum of a phrase from the SHA-256 digest of its
    entropy.  The round constants are computed the way the standard
    defines them: the first 32 bits of the fractional parts of the cube
    roots (square roots for the initial state) of the first primes. *)
(* ================================================================== *)

Module SHA256.
Local Open Scope N_scope.

Definition isPrime (n : nat) : bool :=
  forallb (fun d => negb (Nat.modulo n d =? 0)%nat) (seq 2 (n - 2)).

Definition firstPrimes (k : nat) : list N :=
  map N.of_nat (firstn k (filter isPrime (seq 2 400))).

(** Largest [r] below [2^bits] with [r^3 <= n], one bit at a time. *)
Fixpoint cubeRootBits (bits : nat) (n r : N) : N :=
  match bits with
  | O => r
  | S b =>
      let r' := r + 2 ^ N.of_nat b in
      cubeRootBits b n (if r' * r' * r' <=? n then r' else r)
  end.

Definition word (x : N) : N := x mod 2 ^ 32.

Definition fracSqrt (p : N) : N := word (N.sqrt (p * 2 ^ 64)).
Definition fracCbrt (p : N) : N := word (cubeRootBits 36 (p * 2 ^ 96) 0).

Definition initialState : list N := Eval vm_compute in map fracSqrt (firstPrimes 8).
Definition roundConstants : list N := Eval vm_compute in map fracCbrt (firstPrimes 64).

Definition add (a b : N) : N := word (a + b).
Definition rotr (k x : N) : N := N.lor (N.shiftr x k) (word (N.shiftl x (32 - k))).
Definition xor3 (a b c : N) : N := N.lxor a (N.lxor b c).
Definition ch (x y z : N) : N := N.lxor (N.land x y) (N.land (N.lxor x (2 ^ 32 - 1)) z).
Definition maj (x y z : N) : N := xor3 (N.land x y) (N.land x z) (N.land y z).
Definition bigSigma0 (x : N) : N := xor3 (rotr 2 x) (rotr 13 x) (rotr 22 x).
Definition bigSigma1 (x : N) : N := xor3 (rotr 6 x) (rotr 11 x) (rotr 25 x).
Definition smallSigma0 (x : N) : N := xor3 (rotr 7 x) (rotr 18 x) (N.shiftr x 3).
Definition smallSigma1 (x : N) : N := xor3 (rotr 17 x) (rotr 19 x) (N.shiftr x 10).

(** Big-endian bytes of the [k] low bytes of [x]. *)
Fixpoint bigEndian (k : nat) (x : N) : list N :=
  match k with
  | O => []
  | S k' => (x / 256 ^ N.of_nat k') mod 256 :: bigEndian k' x
  end.

Definition fromBigEndian (bs : list N) : N :=
  fold_left (fun acc b => acc * 256 + b) bs 0.

(** The message, a [1] bit, zeros up to 56 mod 64, and the bit length. *)
Definition pad (msg : list N) : list N :=
  let len := length msg in
  let zeros := Nat.modulo (64 + 55 - Nat.modulo len 64) 64 in
  msg ++ 128 :: repeat 0 zeros ++ bigEndian 8 (8 * N.of_nat len).

(** The message schedule, newest word first. *)
Fixpoint extendSchedule (k : nat) (rev_w : list N) : list N :=
  match k with
  | O => rev_w
  | S k' =>
      let w i := nth i rev_w 0 in
      extendSchedule k'
        (add (add (smallSigma1 (w 1%nat)) (w 6%nat))
             (add (smallSigma0 (w 14%nat)) (w 15%nat)) :: rev_w)
  end.

Definition schedule (block : list N) : list N :=
  rev (extendSchedule 48 (rev (map fromBigEndian (chunks 16 4 block)))).

Definition round (st : list N) (kw : N * N) : list N :=
  match st with
  | [a; b; c; d; e; f; g; h] =>
      let t1 := add (add (add h (bigSigma1 e)) (add (ch e f g) (fst kw))) (snd kw) in
      let t2 := add (bigSigma0 a) (maj a b c) in
      [add t1 t2; a; b; c; add d t1; e; f; g]
  | _ => st
  end.

Definition compress (st : list N) (block : list N) : list N :=
  let st' := fold_left round (combine roundConstants (schedule block)) st in
  map (fun p => add (fst p) (snd p)) (combine st st').

Definition digestN (msg : list N) : list N :=
  let padded := pad msg in
  let st := fold_left compress (chunks (length padded) 64 padded) initialState in
  flat_map (bigEndian 4) st.

(** [sha256(data)]: the 32 bytes of the digest. *)
Definition sha256 (data : bytes) : bytes :=
  map byteOfN (digestN (map Byte.to_N data)).

End SHA256.

(* ================================================================== *)
(** * bip39 (version 3): decoding a mnemonic

    [mnemonicToEntropy] and [validateMnemonic] as the [bip39] package, a
    dependency of [seedPhrase.ts], defines them (BIP-39: 11 bits per word,
    one checksum bit per 32 bits of entropy, taken from SHA-256).  The
    wordlist is a parameter: the 2048 English words are not part of the
    repository.  Bit strings are lists of booleans, most significant bit
    first. *)
(* ================================================================== *)

Module Bip39.
Import JsString.

(** [wordlist.indexOf(word)]; [None] stands for [-1]. *)
Fixpoint indexOf (word : jsstring) (l : list jsstring) : option nat :=
  match l with
  | [] => None
  | w :: l' => if eqb w word then Some O else option_map S (indexOf word l')
  end.

Fixpoint positiveBits (p : positive) (acc : list bool) : list bool :=
  match p with
  | xH => true :: acc
  | xO q => positiveBits q (false :: acc)
  | xI q => positiveBits q (true :: acc)
  end.

(** [n.toString(2)] *)
Definition toBinary (n : N) : list bool :=
  match n with
  | N0 => [false]
  | Npos p => positiveBits p []
  end.

(** [lpad(str, '0', len)] *)
Definition lpad (str : list bool) (len : nat) : list bool :=
  repeat false (len - length str) ++ str.

(** [parseInt(bin, 2)] *)
Definition parseBinary (bin : list bool) : N :=
  fold_left (fun acc (b : bool) => (2 * acc + if b then 1 else 0)%N) bin 0%N.

Definition binaryToByte (bin : list bool) : byte := byteOfN (parseBinary bin).

Definition bytesToBinary (bs : bytes) : list bool :=
  flat_map (fun b => lpad (toBinary (Byte.to_N b)) 8) bs.

Definition deriveChecksumBits (entropyBuffer : bytes) : list bool :=
  let ENT := length entropyBuffer * 8 in
  let CS := ENT / 32 in
  firstn CS (bytesToBinary (SHA256.sha256 entropyBuffer)).

Definition hexDigit (n : N) : ascii :=
  ascii_of_N (if (n <? 10)%N then 48 + n else 87 + n).

Definition hexValue (c : ascii) : option N :=
  let n := N_of_ascii c in
  if ((48 <=? n) && (n <=? 57))%N then Some (n - 48)%N
  else if ((97 <=? n) && (n <=? 102))%N then Some (n - 87)%N
  else if ((65 <=? n) && (n <=? 70))%N then Some (n - 55)%N
  else None.

(** [buffer.toString('hex')] *)
Fixpoint toHex (bs : bytes) : string :=
  match bs with
  | [] => EmptyString
  | b :: bs' =>
      let n := Byte.to_N b in
      String (hexDigit (n / 16)) (String (hexDigit (n mod 16)) (toHex bs'))
  end.

(** [Buffer.from(hex, 'hex')]: pairs of hex digits, up to the first pair
    that is not one. *)
Fixpoint fromHex (hex : string) : bytes :=
  match hex with
  | String c1 (String c2 rest) =>
      match hexValue c1, hexValue c2 with
      | Some h, Some l => byteOfN (16 * h + l) :: fromHex rest
      | _, _ => []
      end
  | _ => []
  end.

Section Wordlist.

Context {E : Unicode}.

Variable wordlist : list jsstring.

(** [normalize(str)]: [(str || '').normalize('NFKD')] *)
Definition normalize (str : jsstring) : jsstring := normalizeNFKD str.

Definition wordBits (word : jsstring) : result (list bool) :=
  match indexOf word wordlist with
  | None => Throw Bip39Error
  | Some index => Ok (lpad (toBinary (N.of_nat index)) 11)
  end.

(** [words.map(wordBits).join('')], with the first [throw] ending the map. *)
Fixpoint wordsBits (words : list jsstring) : result (list bool) :=
  match words with
  | [] => Ok []
  | w :: ws =>
      (let* b := wordBits w in
       let* bs := wordsBits ws in
       Ok (b ++ bs))%js
  end.

Definition mnemonicToEntropy (mnemonic : jsstring) : result string :=
  let words := splitChar space (normalize mnemonic) in
  (guard (length words mod 3 =? 0) else Bip39Error in
   let* bits := wordsBits words in
   let dividerIndex := (length bits / 33) * 32 in
   let entropyBits := firstn dividerIndex bits in
   let checksumBits := skipn dividerIndex bits in
   match chunks (length entropyBits) 8 entropyBits with
   | [] => Throw Bip39Error
   | pieces =>
       let entropyBytes := map binaryToByte pieces in
       guard (16 <=? length entropyBytes) else Bip39Error in
       guard (length entropyBytes <=? 32) else Bip39Error in
       guard (length entropyBytes mod 4 =? 0) else Bip39Error in
       let newChecksum := deriveChecksumBits entropyBytes in
       guard (if list_eq_dec Bool.bool_dec newChecksum checksumBits then true else false)
         else Bip39Error in
       Ok (toHex entropyBytes)
   end)%js.

Definition validateMnemonic (mnemonic : jsstring) : bool :=
  match mnemonicToEntropy mnemonic with
  | Ok _ => true
  | Throw _ => false
  end.

End Wordlist.

End Bip39.

(* ================================================================== *)
(** * constants.ts *)
(* ================================================================== *)

Definition CURRENT_PAYLOAD_VERSION : N := 1.

Module PAYLOAD_STRUCTURE.
Definition VERSION_BYTES : nat := 1.
Definition NONCE_BYTES : nat := 24.
Definition AUTH_TAG_BYTES : nat := 16.
End PAYLOAD_STRUCTURE.

Module SEED_PHRASE_CONFIG.
Definition WORD_COUNT : nat := 12.
Definition ENTROPY_BITS : nat := 128.
End SEED_PHRASE_CONFIG.

Module KEY_LENGTHS.
Definition SECRET_KEY : nat := 32.
Definition PUBLIC_KEY : nat := 32.
Definition PRIVATE_KEY : nat := 32.
Definition NONCE : nat := 24.
End KEY_LENGTHS.

(* ================================================================== *)
(** * seedPhrase.ts *)
(* ================================================================== *)

Module SeedPhrase.
Import JsString.

(** [new Set<number>()]: the elements in insertion order. *)
Definition setAdd (pos : Z) (positions : list Z) : list Z :=
  if existsb (Z.eqb pos) positions then positions else positions ++ [pos].

Fixpoint insertSorted (x : Z) (l : list Z) : list Z :=
  match l with
  | [] => [x]
  | y :: l' => if (x <=? y)%Z then x :: l else y :: insertSorted x l'
  end.

(** [array.sort((a, b) => a - b)] *)
Definition sortAscending (l : list Z) : list Z := fold_right insertSorted [] l.

Section Wordlist.

Context {E : Unicode}.

Variable wordlist : list jsstring.

Definition validateSeedPhrase (phrase : jsstring) : bool :=
  let words := splitWs (toLowerCase (trim phrase)) in
  if negb (length words =? SEED_PHRASE_CONFIG.WORD_COUNT) then false
  else Bip39.validateMnemonic wordlist (toLowerCase (trim phrase)).

Definition normalizeSeedPhrase (phrase : jsstring) : jsstring :=
  join [space] (splitWs (toLowerCase (trim phrase))).

Definition seedPhraseToEntropy (phrase : jsstring) : result bytes :=
  let normalized := normalizeSeedPhrase phrase in
  (guard (validateSeedPhrase normalized) else InvalidPhrase in
   let* entropyHex := Bip39.mnemonicToEntropy wordlist normalized in
   Ok (Bip39.fromHex entropyHex))%js.

Definition getWordAtPosition (phrase : jsstring) (position : Z) : result jsstring :=
  (guard (negb ((position <? 1)%Z || (position >? Z.of_nat SEED_PHRASE_CONFIG.WORD_COUNT)%Z))
     else OutOfRange in
   let words := splitChar space (normalizeSeedPhrase phrase) in
   match nth_error words (Z.to_nat (position - 1)) with
   | None | Some [] => Throw InvalidPhrase
   | Some word => Ok word
   end)%js.

End Wordlist.

(** The [while] loop of [generateQuizPositions].  [randomIndex i] is the
    value of [Math.floor(Math.random() * WORD_COUNT)] in the [i]-th
    evaluation of the loop body; [calls] counts the evaluations so far, and
    [fuel] those still allowed ([None]: the loop asks for one more). *)
Fixpoint quizLoop (fuel : nat) (randomIndex : nat -> Z) (calls : nat)
    (positions : list Z) (count : Z) : option (list Z) :=
  if (Z.of_nat (length positions) <? count)%Z
  then
    match fuel with
    | O => None
    | S fuel' =>
        let pos := (randomIndex calls + 1)%Z in
        quizLoop fuel' randomIndex (S calls) (setAdd pos positions) count
    end
  else Some positions.

Definition generateQuizPositions (fuel : nat) (randomIndex : nat -> Z) (count : Z)
    : option (list Z) :=
  option_map sortAscending (quizLoop fuel randomIndex 0 [] count).

End SeedPhrase.

(* ================================================================== *)
(** * The packages behind the code: tweetnacl-util and tweetnacl

    Both are interfaces: their operations are the names the sources call,
    and the laws are the documented contract of NaCl (decryption inverts
    encryption under the matching keys, the authenticator is 16 bytes) and
    of Base64 (decoding inverts encoding).  [referenceUtil] and
    [referenceNaCl] below implement the interfaces. *)
(* ================================================================== *)

Class Util : Type := {
  (** [encodeBase64(bytes)] *)
  encodeBase64 : bytes -> string;
  (** [decodeBase64(s)]; [None] when it throws [TypeError('invalid encoding')]. *)
  decodeBase64_opt : string -> option bytes
}.

Class UtilLaws (U : Util) : Prop := {
  decode_encode : forall b : bytes, decodeBase64_opt (encodeBase64 b) = Some b
}.

Class NaCl : Type := {
  (** The state of the system random source behind [nacl.randomBytes]. *)
  rng : Type;
  (** [nacl.randomBytes(n)] *)
  randomBytes : nat -> rng -> bytes * rng;
  (** [nacl.secretbox(msg, nonce, key)] *)
  secretbox : bytes -> bytes -> bytes -> bytes;
  (** [nacl.secretbox.open(box, nonce, key)]; [None] stands for [null]. *)
  secretbox_open : bytes -> bytes -> bytes -> option bytes;
  (** [nacl.box(msg, nonce, publicKey, secretKey)] *)
  box : bytes -> bytes -> bytes -> bytes -> bytes;
  (** [nacl.box.open(box, nonce, publicKey, secretKey)] *)
  box_open : bytes -> bytes -> bytes -> bytes -> option bytes;
  (** [nacl.scalarMult.base(secretKey)]: the public key of a secret key. *)
  scalarMult_base : bytes -> bytes;
  (** [nacl.hash(msg)]: SHA-512. *)
  hash : bytes -> bytes
}.

(** The laws speak of nonces of 24 bytes and keys of 32 bytes only: with
    other sizes the operations of tweetnacl throw, and the package checks
    the sizes before it calls them. *)
Class NaClLaws (NA : NaCl) : Prop := {
  randomBytes_length : forall n g, length (fst (randomBytes n g)) = n;
  secretbox_length : forall m n k,
    length n = 24 -> length k = 32 ->
    length (secretbox m n k) = length m + 16;
  secretbox_open_secretbox : forall m n k,
    length n = 24 -> length k = 32 ->
    secretbox_open (secretbox m n k) n k = Some m;
  box_length : forall m n pk sk,
    length n = 24 -> length pk = 32 -> length sk = 32 ->
    length (box m n pk sk) = length m + 16;
  box_open_box : forall m n skA skB,
    length n = 24 -> length skA = 32 -> length skB = 32 ->
    box_open (box m n (scalarMult_base skB) skA) n (scalarMult_base skA) skB = Some m;
  box_open_length : forall c n pk sk m,
    length n = 24 -> length pk = 32 -> length sk = 32 ->
    box_open c n pk sk = Some m -> length c = length m + 16;
  scalarMult_base_length : forall sk, length sk = 32 -> length (scalarMult_base sk) = 32
}.

(** ** Typed arrays *)

(** [bytes.slice(from, to)] for [0 <= from <= to]. *)
Definition slice (l : bytes) (from to : nat) : bytes := firstn (to - from) (skipn from l).

(** [bytes.slice(from)] *)
Definition sliceFrom (l : bytes) (from : nat) : bytes := skipn from l.

(** [new Uint8Array(n)] *)
Definition newUint8Array (n : nat) : bytes := repeat x00 n.

(** [array[i] = v]; a write past the end is ignored. *)
Definition setIndex (array : bytes) (i : nat) (v : byte) : bytes :=
  if i <? length array then firstn i array ++ v :: skipn (S i) array else array.

(** [array.set(source, offset)]; throws when the source does not fit. *)
Definition typedArraySet (array source : bytes) (offset : nat) : result bytes :=
  if offset + length source <=? length array
  then Ok (firstn offset array ++ source ++ skipn (offset + length source) array)
  else Throw RangeError.

(** Computations that draw from [nacl.randomBytes] and may throw: the state
    of the random source is threaded through, and a [throw] ends the
    computation in the state reached so far. *)
Definition Rand {NA : NaCl} (A : Type) : Type := rng -> result A * rng.

Definition retR {NA : NaCl} {A} (a : A) : Rand A := fun g => (Ok a, g).

Definition liftR {NA : NaCl} {A} (r : result A) : Rand A := fun g => (r, g).

Definition bindR {NA : NaCl} {A B} (c : Rand A) (k : A -> Rand B) : Rand B :=
  fun g =>
    match c g with
    | (Ok a, g') => k a g'
    | (Throw e, g') => (Throw e, g')
    end.

Definition drawR {NA : NaCl} (n : nat) : Rand bytes :=
  fun g => let (b, g') := randomBytes n g in (Ok b, g').

Notation "'let!' x ':=' c 'in' k" := (bindR c (fun x => k))
  (at level 61, x pattern, c at next level, right associativity) : js_scope.

(** [list.map(f)] for an [f] that draws randomness and may throw. *)
Fixpoint mapR {NA : NaCl} {A B} (f : A -> Rand B) (l : list A) : Rand (list B) :=
  match l with
  | [] => retR []
  | a :: l' =>
      (let! b := f a in
       let! bs := mapR f l' in
       retR (b :: bs))%js
  end.

Section Package.

Context {U : Util} {NA : NaCl} {E : JsString.Unicode}.

Definition decodeBase64 (s : string) : result bytes :=
  match decodeBase64_opt s with
  | Some b => Ok b
  | None => Throw InvalidEncoding
  end.

(** [[Version][Nonce][Ciphertext]], assembled as both [encrypt] and
    [encryptKeyForRecipient] do. *)
Definition assemblePayload (nonce ciphertext : bytes) : result bytes :=
  let payload :=
    newUint8Array
      (PAYLOAD_STRUCTURE.VERSION_BYTES + PAYLOAD_STRUCTURE.NONCE_BYTES + length ciphertext) in
  let payload := setIndex payload 0 (byteOfN CURRENT_PAYLOAD_VERSION) in
  (let* payload := typedArraySet payload nonce PAYLOAD_STRUCTURE.VERSION_BYTES in
   typedArraySet payload ciphertext
     (PAYLOAD_STRUCTURE.VERSION_BYTES + PAYLOAD_STRUCTURE.NONCE_BYTES))%js.

(* ---------------------------------------------------------------- *)
(** ** encrypt.ts *)
(* ---------------------------------------------------------------- *)

Definition encrypt (data : bytes) (key : string) : Rand string :=
  (let! keyBytes := liftR (decodeBase64 key) in
   if negb (length keyBytes =? KEY_LENGTHS.SECRET_KEY)
   then liftR (Throw (InvalidKey SymmetricKey))
   else
     let! nonce := drawR PAYLOAD_STRUCTURE.NONCE_BYTES in
     let ciphertext := secretbox data nonce keyBytes in
     let! payload := liftR (assemblePayload nonce ciphertext) in
     retR (encodeBase64 payload))%js.

Definition decryptV1 (payloadBytes keyBytes : bytes) : result bytes :=
  let nonce :=
    slice payloadBytes PAYLOAD_STRUCTURE.VERSION_BYTES
      (PAYLOAD_STRUCTURE.VERSION_BYTES + PAYLOAD_STRUCTURE.NONCE_BYTES) in
  let ciphertext :=
    sliceFrom payloadBytes
      (PAYLOAD_STRUCTURE.VERSION_BYTES + PAYLOAD_STRUCTURE.NONCE_BYTES) in
  match secretbox_open ciphertext nonce keyBytes with
  | None => Throw DecryptionFailed
  | Some decrypted => Ok decrypted
  end.

Definition decrypt (payload key : string) : result bytes :=
  (let* payloadBytes := decodeBase64 payload in
   let* keyBytes := decodeBase64 key in
   guard (length keyBytes =? KEY_LENGTHS.SECRET_KEY) else InvalidKey SymmetricKey in
   let minLength :=
     PAYLOAD_STRUCTURE.VERSION_BYTES + PAYLOAD_STRUCTURE.NONCE_BYTES
     + PAYLOAD_STRUCTURE.AUTH_TAG_BYTES in
   guard (negb (length payloadBytes <? minLength)) else PayloadTooShort in
   match nth_error payloadBytes 0 with
   | None => Throw (UnknownVersion None)
   | Some version =>
       if (CURRENT_PAYLOAD_VERSION <? Byte.to_N version)%N
       then Throw (UnknownVersion (Some version))
       else if (Byte.to_N version =? 1)%N
       then decryptV1 payloadBytes keyBytes
       else Throw (UnsupportedVersion version)
   end)%js.

Definition getPayloadVersion (payload : string) : result byte :=
  (let* payloadBytes := decodeBase64 payload in
   guard (negb (length payloadBytes <? PAYLOAD_STRUCTURE.VERSION_BYTES))
     else PayloadTooShort in
   match nth_error payloadBytes 0 with
   | None => Throw (UnknownVersion None)
   | Some version => Ok version
   end)%js.

(* ---------------------------------------------------------------- *)
(** ** keys.ts *)
(* ---------------------------------------------------------------- *)

Record UserKeyPair : Type := {
  publicKey : string;
  privateKey : string
}.

(** [nacl.box.keyPair.fromSecretKey(secretKey)]: the pair of the public
    key and (a copy of) the secret key. *)
Definition keyPair_fromSecretKey (secretKey : bytes) : result (bytes * bytes) :=
  (guard (length secretKey =? 32) else BadSecretKeySize in
   Ok (scalarMult_base secretKey, secretKey))%js.

Section Wordlist.

Variable wordlist : list JsString.jsstring.

Definition deriveKeyPairFromSeedPhrase (seedPhrase : JsString.jsstring) : result UserKeyPair :=
  let normalized := SeedPhrase.normalizeSeedPhrase seedPhrase in
  (guard (SeedPhrase.validateSeedPhrase wordlist normalized) else InvalidPhrase in
   let* entropy := SeedPhrase.seedPhraseToEntropy wordlist normalized in
   let hash := hash entropy in
   let seed := slice hash 0 KEY_LENGTHS.PRIVATE_KEY in
   let* keyPair := keyPair_fromSecretKey seed in
   Ok {| publicKey := encodeBase64 (fst keyPair);
         privateKey := encodeBase64 (snd keyPair) |})%js.

End Wordlist.

Definition validateKey (key : string) (expectedLength : nat) : result bool :=
  try_catch
    (let* decoded := decodeBase64 key in
     Ok (length decoded =? expectedLength))%js
    (fun _ => Ok false).

Definition validatePublicKey (key : string) : result bool :=
  validateKey key KEY_LENGTHS.PUBLIC_KEY.

Definition validatePrivateKey (key : string) : result bool :=
  validateKey key KEY_LENGTHS.PRIVATE_KEY.

Definition validateSymmetricKey (key : string) : result bool :=
  validateKey key KEY_LENGTHS.SECRET_KEY.

Definition publicKeyFromPrivateKey (privateKey : string) : result string :=
  (let* secretKey := decodeBase64 privateKey in
   guard (length secretKey =? KEY_LENGTHS.PRIVATE_KEY) else InvalidKey PrivateKey in
   let* keyPair := keyPair_fromSecretKey secretKey in
   Ok (encodeBase64 (fst keyPair)))%js.

(* ---------------------------------------------------------------- *)
(** ** share.ts *)
(* ---------------------------------------------------------------- *)

Definition encryptKeyForRecipient (symmetricKey recipientPublicKey senderPrivateKey : string)
    : Rand string :=
  (let! keyBytes := liftR (decodeBase64 symmetricKey) in
   let! recipientPub := liftR (decodeBase64 recipientPublicKey) in
   let! senderPriv := liftR (decodeBase64 senderPrivateKey) in
   if negb (length keyBytes =? KEY_LENGTHS.SECRET_KEY)
   then liftR (Throw (InvalidKey SymmetricKey))
   else if negb (length recipientPub =? KEY_LENGTHS.PUBLIC_KEY)
   then liftR (Throw (InvalidKey RecipientPublicKey))
   else if negb (length senderPriv =? KEY_LENGTHS.PRIVATE_KEY)
   then liftR (Throw (InvalidKey SenderPrivateKey))
   else
     let! nonce := drawR PAYLOAD_STRUCTURE.NONCE_BYTES in
     let ciphertext := box keyBytes nonce recipientPub senderPriv in
     let! payload := liftR (assemblePayload nonce ciphertext) in
     retR (encodeBase64 payload))%js.

Definition decryptKeyFromSender (encryptedKey senderPublicKey recipientPrivateKey : string)
    : result string :=
  (let* payloadBytes := decodeBase64 encryptedKey in
   let* senderPub := decodeBase64 senderPublicKey in
   let* recipientPriv := decodeBase64 recipientPrivateKey in
   guard (length senderPub =? KEY_LENGTHS.PUBLIC_KEY) else InvalidKey SenderPublicKey in
   guard (length recipientPriv =? KEY_LENGTHS.PRIVATE_KEY)
     else InvalidKey RecipientPrivateKey in
   let minLength :=
     PAYLOAD_STRUCTURE.VERSION_BYTES + PAYLOAD_STRUCTURE.NONCE_BYTES
     + KEY_LENGTHS.SECRET_KEY + PAYLOAD_STRUCTURE.AUTH_TAG_BYTES in
   guard (negb (length payloadBytes <? minLength)) else PayloadTooShort in
   match nth_error payloadBytes 0 with
   | None => Throw (UnknownVersion None)
   | Some version =>
       if (CURRENT_PAYLOAD_VERSION <? Byte.to_N version)%N
       then Throw (UnknownVersion (Some version))
       else
         let nonce :=
           slice payloadBytes PAYLOAD_STRUCTURE.VERSION_BYTES
             (PAYLOAD_STRUCTURE.VERSION_BYTES + PAYLOAD_STRUCTURE.NONCE_BYTES) in
         let ciphertext :=
           sliceFrom payloadBytes
             (PAYLOAD_STRUCTURE.VERSION_BYTES + PAYLOAD_STRUCTURE.NONCE_BYTES) in
         match box_open ciphertext nonce senderPub recipientPriv with
         | None => Throw DecryptionFailed
         | Some decrypted =>
             guard (length decrypted =? KEY_LENGTHS.SECRET_KEY) else CorruptKey in
             Ok (encodeBase64 decrypted)
         end
   end)%js.

Record Recipient : Type := {
  userId : string;
  recipientKey : string   (* the field [publicKey] of a recipient *)
}.

Record Grant : Type := {
  grantUserId : string;          (* the field [userId] of a grant *)
  encryptedGalleryKey : string
}.

Definition encryptGalleryKeyForMembers (galleryKey : string) (recipients : list Recipient)
    (senderPrivateKey : string) : Rand (list Grant) :=
  mapR
    (fun recipient =>
       (let! encrypted :=
          encryptKeyForRecipient galleryKey (recipientKey recipient) senderPrivateKey in
        retR {| grantUserId := userId recipient; encryptedGalleryKey := encrypted |})%js)
    recipients.

Definition encryptGalleryKeyForAdmin (galleryKey adminPublicKey reporterPrivateKey : string)
    : Rand string :=
  encryptKeyForRecipient galleryKey adminPublicKey reporterPrivateKey.

End Package.

(* ================================================================== *)
(** * Implementations of the interfaces

    [Base64] is the RFC 4648 codec behind [tweetnacl-util].  [ToyNaCl] is a
    small stand-in with the shape of NaCl (a 16-byte authenticator in
    front of a masked message, a commutative key agreement); it is not a
    cipher, and serves to run the package on concrete inputs and to show
    that the laws of [NaClLaws] can be met.  [asciiUnicode] does the same
    for [UnicodeLaws].  [tweetnacl], further down, is NaCl itself: the
    algorithms of the library, checked below against NaCl's published
    test of [crypto_box]. *)
(* ================================================================== *)

Module Base64.
Local Open Scope N_scope.

(** The character of a 6-bit value: A-Z, a-z, 0-9, + and /. *)
Definition charOf (n : N) : ascii :=
  ascii_of_N
    (if n <? 26 then 65 + n
     else if n <? 52 then 71 + n
     else if n <? 62 then n - 4
     else if n =? 62 then 43
     else 47).

Definition valueOf (c : ascii) : option N :=
  let n := N_of_ascii c in
  if (65 <=? n) && (n <=? 90) then Some (n - 65)
  else if (97 <=? n) && (n <=? 122) then Some (n - 71)
  else if (48 <=? n) && (n <=? 57) then Some (n + 4)
  else if n =? 43 then Some 62
  else if n =? 47 then Some 63
  else None.

Definition padChar : ascii := "=".

Fixpoint encode (bs : bytes) : string :=
  match bs with
  | [] => EmptyString
  | [a] =>
      let a := Byte.to_N a in
      String (charOf (a / 4)) (String (charOf (a mod 4 * 16))
        (String padChar (String padChar EmptyString)))
  | [a; b] =>
      let a := Byte.to_N a in
      let b := Byte.to_N b in
      String (charOf (a / 4)) (String (charOf (a mod 4 * 16 + b / 16))
        (String (charOf (b mod 16 * 4)) (String padChar EmptyString)))
  | a :: b :: c :: rest =>
      let a := Byte.to_N a in
      let b := Byte.to_N b in
      let c := Byte.to_N c in
      String (charOf (a / 4)) (String (charOf (a mod 4 * 16 + b / 16))
        (String (charOf (b mod 16 * 4 + c / 64)) (String (charOf (c mod 64))
          (encode rest))))
  end.

Definition isEmpty (s : string) : bool :=
  match s with
  | EmptyString => true
  | _ => false
  end.

(** Groups of four characters; padding only closes the last group. *)
Fixpoint decode (s : string) : option bytes :=
  match s with
  | EmptyString => Some []
  | String c1 (String c2 (String c3 (String c4 rest))) =>
      match valueOf c1, valueOf c2 with
      | Some v1, Some v2 =>
          let b1 := byteOfN (v1 * 4 + v2 / 16) in
          if Ascii.eqb c3 padChar
          then (if Ascii.eqb c4 padChar && isEmpty rest then Some [b1] else None)
          else
            match valueOf c3 with
            | Some v3 =>
                let b2 := byteOfN (v2 mod 16 * 16 + v3 / 4) in
                if Ascii.eqb c4 padChar
                then (if isEmpty rest then Some [b1; b2] else None)
                else
                  match valueOf c4, decode rest with
                  | Some v4, Some tail =>
                      Some (b1 :: b2 :: byteOfN (v3 mod 4 * 64 + v4) :: tail)
                  | _, _ => None
                  end
            | None => None
            end
      | _, _ => None
      end
  | _ => None
  end.

End Base64.

Definition referenceUtil : Util := {|
  encodeBase64 := Base64.encode;
  decodeBase64_opt := Base64.decode
|}.

Module ToyNaCl.

Definition byteAdd (a b : byte) : byte := byteOfN ((Byte.to_N a + Byte.to_N b) mod 256).
Definition byteSub (a b : byte) : byte := byteOfN ((Byte.to_N a + 256 - Byte.to_N b) mod 256).

Definition digest (l : bytes) : byte := fold_left byteAdd l x00.

(** Sixteen bytes that depend on the key, the nonce and the message. *)
Definition tag (m n k : bytes) : bytes :=
  map
    (fun i =>
       byteAdd (byteAdd (nth i k x00) (nth (16 + i) k x00))
         (byteAdd (nth i n x00)
            (byteAdd (digest m) (byteOfN (N.of_nat (length m + i) mod 256)))))
    (seq 0 16).

Definition mask (n k : bytes) : byte := digest (k ++ n).

Definition seal (m n k : bytes) : bytes :=
  tag m n k ++ map (fun b => byteAdd b (mask n k)) m.

Definition bytes_eqb (a b : bytes) : bool :=
  if list_eq_dec Byte.byte_eq_dec a b then true else false.

Definition open (c n k : bytes) : option bytes :=
  if length c <? 16 then None
  else
    let m := map (fun b => byteSub b (mask n k)) (skipn 16 c) in
    if bytes_eqb (firstn 16 c) (tag m n k) then Some m else None.

Definition basePoint : byte := x09.

Definition publicOf (sk : bytes) : bytes := map (fun b => byteAdd b basePoint) sk.

(** The shared key of a public and a secret key. *)
Definition shared (pk sk : bytes) : bytes :=
  map (fun p => byteAdd (fst p) (snd p)) (combine pk (publicOf sk)).

(** A counter: the [i]-th byte drawn in state [g] is [g + 7 i mod 256]. *)
Definition draw (n : nat) (g : N) : bytes * N :=
  (map (fun i => byteOfN ((g + 7 * N.of_nat i) mod 256)) (seq 0 n), (g + 1)%N).

Definition hash64 (m : bytes) : bytes :=
  SHA256.sha256 m ++ SHA256.sha256 (x01 :: m).

End ToyNaCl.

Definition referenceNaCl : NaCl := {|
  rng := N;
  randomBytes := ToyNaCl.draw;
  secretbox := ToyNaCl.seal;
  secretbox_open := ToyNaCl.open;
  box := fun m n pk sk => ToyNaCl.seal m n (ToyNaCl.shared pk sk);
  box_open := fun c n pk sk => ToyNaCl.open c n (ToyNaCl.shared pk sk);
  scalarMult_base := ToyNaCl.publicOf;
  hash := ToyNaCl.hash64
|}.

(** The engine cut down to ASCII: [A] to [Z] are lowered, every other code
    unit is left alone, and NFKD changes nothing. *)
Definition asciiUnicode : JsString.Unicode := {|
  JsString.toLowerCase := map JsString.asciiLower;
  JsString.normalizeNFKD := fun s => s
|}.

(* ================================================================== *)
(** * SHA-512 (FIPS 180-4)

    [nacl.hash] is SHA-512: words of 64 bits, eighty rounds, and
    constants taken from the first eighty primes the way those of SHA-256
    are taken from the first sixty-four. *)
(* ================================================================== *)

Module SHA512.
Local Open Scope N_scope.

Definition firstPrimes (k : nat) : list N :=
  map N.of_nat (firstn k (filter SHA256.isPrime (seq 2 420))).

Definition word (x : N) : N := x mod 2 ^ 64.

Definition fracSqrt (p : N) : N := word (N.sqrt (p * 2 ^ 128)).
Definition fracCbrt (p : N) : N := word (SHA256.cubeRootBits 68 (p * 2 ^ 192) 0).

Definition initialState : list N := Eval vm_compute in map fracSqrt (firstPrimes 8).
Definition roundConstants : list N := Eval vm_compute in map fracCbrt (firstPrimes 80).

Definition add (a b : N) : N := word (a + b).
Definition rotr (k x : N) : N := N.lor (N.shiftr x k) (word (N.shiftl x (64 - k))).
Definition xor3 (a b c : N) : N := N.lxor a (N.lxor b c).
Definition ch (x y z : N) : N := N.lxor (N.land x y) (N.land (N.lxor x (2 ^ 64 - 1)) z).
Definition maj (x y z : N) : N := xor3 (N.land x y) (N.land x z) (N.land y z).
Definition bigSigma0 (x : N) : N := xor3 (rotr 28 x) (rotr 34 x) (rotr 39 x).
Definition bigSigma1 (x : N) : N := xor3 (rotr 14 x) (rotr 18 x) (rotr 41 x).
Definition smallSigma0 (x : N) : N := xor3 (rotr 1 x) (rotr 8 x) (N.shiftr x 7).
Definition smallSigma1 (x : N) : N := xor3 (rotr 19 x) (rotr 61 x) (N.shiftr x 6).

(** The message, a [1] bit, zeros up to 112 mod 128, and the bit length
    in sixteen bytes. *)
Definition pad (msg : list N) : list N :=
  let len := length msg in
  let zeros := Nat.modulo (128 + 111 - Nat.modulo len 128) 128 in
  msg ++ 128 :: repeat 0 zeros ++ SHA256.bigEndian 16 (8 * N.of_nat len).

(** The message schedule, newest word first. *)
Fixpoint extendSchedule (k : nat) (rev_w : list N) : list N :=
  match k with
  | O => rev_w
  | S k' =>
      let w i := nth i rev_w 0 in
      extendSchedule k'
        (add (add (smallSigma1 (w 1%nat)) (w 6%nat))
             (add (smallSigma0 (w 14%nat)) (w 15%nat)) :: rev_w)
  end.

Definition schedule (block : list N) : list N :=
  rev (extendSchedule 64 (rev (map SHA256.fromBigEndian (chunks 16 8 block)))).

Definition round (st : list N) (kw : N * N) : list N :=
  match st with
  | [a; b; c; d; e; f; g; h] =>
      let t1 := add (add (add h (bigSigma1 e)) (add (ch e f g) (fst kw))) (snd kw) in
      let t2 := add (bigSigma0 a) (maj a b c) in
      [add t1 t2; a; b; c; add d t1; e; f; g]
  | _ => st
  end.

Definition compress (st : list N) (block : list N) : list N :=
  let st' := fold_left round (combine roundConstants (schedule block)) st in
  map (fun p => add (fst p) (snd p)) (combine st st').

Definition digestN (msg : list N) : list N :=
  let padded := pad msg in
  let st := fold_left compress (chunks (length padded) 128 padded) initialState in
  flat_map (SHA256.bigEndian 8) st.

(** [nacl.hash(data)]: the 64 bytes of the digest. *)
Definition sha512 (data : bytes) : bytes :=
  map byteOfN (digestN (map Byte.to_N data)).

End SHA512.

(* ================================================================== *)
(** * Curve25519, as tweetnacl computes it

    [crypto_scalarmult] of TweetNaCl: field elements of sixteen 16-bit
    limbs, the Montgomery ladder over the clamped scalar, and the packing
    of the result.  Two facts of X25519 show in the code: [unpack25519]
    drops bit 255 of the point, and the scalar is the secret key with its
    three low bits and its top bit cleared and bit 254 set. *)
(* ================================================================== *)

Module Curve25519.
Import Uint63.
Local Open Scope uint63_scope.

(** A field element [gf]: sixteen limbs of sixteen bits, least significant
    first, each a signed 63-bit integer. *)
Definition gf : Type := list int.

Definition gf0 : gf := repeat 0 16.
Definition gf1 : gf := 1 :: repeat 0 15.
Definition _121665 : gf := 0xDB41 :: 1 :: repeat 0 14.

(** The limbs brought back to sixteen bits, each carry going to the next
    limb. *)
Fixpoint carryChain (o : gf) (c : int) : gf * int :=
  match o with
  | [] => ([], c)
  | x :: rest =>
      let v := x + c in
      let (rest', c') := carryChain rest (PrimInt63.asr v 16) in
      (v land 0xffff :: rest', c')
  end.

(** [car25519]: the carry out of the last limb comes back into the first,
    times 38. *)
Definition car25519 (o : gf) : gf :=
  match carryChain o 0 with
  | (x :: rest, c) => x + 38 * c :: rest
  | (nil, _) => nil
  end.

Fixpoint zipWith (f : int -> int -> int) (a b : gf) : gf :=
  match a, b with
  | x :: a', y :: b' => f x y :: zipWith f a' b'
  | [], _ => b
  | _, [] => a
  end.

Definition A (a b : gf) : gf := zipWith PrimInt63.add a b.
Definition Z (a b : gf) : gf := zipWith PrimInt63.sub a b.

(** [t[i+j] += a[i] * b[j]] *)
Fixpoint product (a b : gf) : list int :=
  match a with
  | [] => []
  | x :: a' => zipWith PrimInt63.add (map (PrimInt63.mul x) b) (0 :: product a' b)
  end.

Definition M (a b : gf) : gf :=
  let t := product a b in
  car25519 (car25519 (zipWith PrimInt63.add (firstn 16 t) (map (PrimInt63.mul 38) (skipn 16 t)))).

Definition S (a : gf) : gf := M a a.

(** [sel25519(p, q, b)] *)
Definition sel25519 (p q : gf) (b : bool) : gf * gf := if b then (q, p) else (p, q).

(** [inv25519]: the power [2^255 - 21]. *)
Fixpoint inv25519_loop (a : nat) (c i : gf) : gf :=
  match a with
  | O => c
  | Datatypes.S a' =>
      let c := S c in
      inv25519_loop a' (if (Nat.eqb a' 2 || Nat.eqb a' 4)%bool then c else M c i) i
  end.

Definition inv25519 (i : gf) : gf := inv25519_loop 254 i i.

Definition primeLimbs : gf := 0xffed :: repeat 0xffff 14 ++ [0x7fff].

(** [t - p], limb by limb with the borrows; the flag is the borrow out of
    the last limb. *)
Fixpoint subtractPrime (t p : gf) (borrow : int) : gf * int :=
  match t, p with
  | [x], [y] =>
      let m := x - y - borrow in
      ([m], PrimInt63.asr m 16 land 1)
  | x :: t', y :: p' =>
      let m := x - y - borrow in
      let (rest, b) := subtractPrime t' p' (PrimInt63.asr m 16 land 1) in
      (m land 0xffff :: rest, b)
  | _, _ => ([], 0)
  end.

Definition reduceOnce (t : gf) : gf :=
  let (m, b) := subtractPrime t primeLimbs 0 in
  if b =? 0 then m else t.

(** [pack25519]: the 32 bytes of the canonical representative. *)
Definition pack25519 (n : gf) : list int :=
  let t := car25519 (car25519 (car25519 n)) in
  let t := reduceOnce (reduceOnce t) in
  flat_map (fun x => [x land 0xff; x >> 8]) t.

(** [unpack25519]: bit 255 of the 32 bytes is dropped. *)
Fixpoint limbs (n : list int) : gf :=
  match n with
  | lo :: hi :: rest => lo + (hi << 8) :: limbs rest
  | _ => []
  end.

Definition unpack25519 (n : list int) : gf :=
  match rev (limbs n) with
  | top :: rest => rev (top land 0x7fff :: rest)
  | [] => []
  end.

(** The scalar of a secret key [n]: [z[31] = (n[31] & 127) | 64] and
    [z[0] &= 248]. *)
Definition clamp (n : list int) : list int :=
  match n with
  | first :: rest =>
      match rev rest with
      | last :: middle => (first land 248) :: rev (((last land 127) lor 64) :: middle)
      | [] => n
      end
  | [] => n
  end.

(** [(z[i >>> 3] >>> (i & 7)) & 1] *)
Definition bit (z : list int) (i : nat) : bool :=
  ((nth (Nat.div i 8) z 0 >> of_Z (Z.of_nat (Nat.modulo i 8))) land 1) =? 1.

Record ladderState : Type := { a : gf; b : gf; c : gf; d : gf }.

Definition select (r : bool) (st : ladderState) : ladderState :=
  let (a', b') := sel25519 (a st) (b st) r in
  let (c', d') := sel25519 (c st) (d st) r in
  {| a := a'; b := b'; c := c'; d := d' |}.

Definition ladderStep (x : gf) (st : ladderState) : ladderState :=
  let '(a, b, c, d) := (a st, b st, c st, d st) in
  let e := A a c in
  let a := Z a c in
  let c := A b d in
  let b := Z b d in
  let d := S e in
  let f := S a in
  let a := M c a in
  let c := M b e in
  let e := A a c in
  let a := Z a c in
  let b := S a in
  let c := Z d f in
  let a := M c _121665 in
  let a := A a d in
  let c := M c a in
  let a := M d f in
  let d := M b x in
  let b := S e in
  {| a := a; b := b; c := c; d := d |}.

Fixpoint ladder (i : nat) (z : list int) (x : gf) (st : ladderState) : ladderState :=
  match i with
  | O => st
  | Datatypes.S i' =>
      let r := bit z i' in
      ladder i' z x (select r (ladderStep x (select r st)))
  end.

(** [crypto_scalarmult(q, n, p)] *)
Definition crypto_scalarmult (n p : list int) : list int :=
  let z := clamp n in
  let x := unpack25519 p in
  let st := ladder 255 z x {| a := gf1; b := x; c := gf0; d := gf1 |} in
  pack25519 (M (a st) (inv25519 (c st))).

Definition toInts (l : list N) : list int := map (fun n => of_Z (Z.of_N n)) l.
Definition ofInts (l : list int) : list N := map (fun i => Z.to_N (to_Z i)) l.

End Curve25519.

(* ================================================================== *)
(** * tweetnacl: the algorithms behind the interface

    What [nacl.box], [nacl.secretbox] and [nacl.scalarMult.base] compute:
    HSalsa20 and XSalsa20 (the Salsa20 family), the Poly1305 authenticator
    and the key agreement of [Curve25519], put together as NaCl's
    [crypto_box] and [crypto_secretbox].  Keys are 32 bytes and nonces 24
    bytes; tweetnacl throws on other sizes, which the package rules out
    before it calls. *)
(* ================================================================== *)

Module TweetNaCl.
Local Open Scope N_scope.

Fixpoint fromLittleEndian (bs : list N) : N :=
  match bs with
  | [] => 0
  | b :: bs' => b + 256 * fromLittleEndian bs'
  end.

Fixpoint littleEndian (k : nat) (x : N) : list N :=
  match k with
  | O => []
  | S k' => x mod 256 :: littleEndian k' (x / 256)
  end.

(** ** Salsa20 *)

Definition word (x : N) : N := x mod 2 ^ 32.

(** [L32(x, c)]: rotation to the left of a 32-bit word. *)
Definition rotl (c x : N) : N := N.lor (word (N.shiftl x c)) (N.shiftr x (32 - c)).

Definition quarterRound (y0 y1 y2 y3 : N) : N * N * N * N :=
  let z1 := N.lxor y1 (rotl 7 (word (y0 + y3))) in
  let z2 := N.lxor y2 (rotl 9 (word (z1 + y0))) in
  let z3 := N.lxor y3 (rotl 13 (word (z2 + z1))) in
  let z0 := N.lxor y0 (rotl 18 (word (z3 + z2))) in
  (z0, z1, z2, z3).

(** A column round followed by a row round. *)
Definition doubleRound (x : list N) : list N :=
  match x with
  | [s0; s1; s2; s3; s4; s5; s6; s7; s8; s9; s10; s11; s12; s13; s14; s15] =>
      let '(s0, s4, s8, s12) := quarterRound s0 s4 s8 s12 in
      let '(s5, s9, s13, s1) := quarterRound s5 s9 s13 s1 in
      let '(s10, s14, s2, s6) := quarterRound s10 s14 s2 s6 in
      let '(s15, s3, s7, s11) := quarterRound s15 s3 s7 s11 in
      let '(s0, s1, s2, s3) := quarterRound s0 s1 s2 s3 in
      let '(s5, s6, s7, s4) := quarterRound s5 s6 s7 s4 in
      let '(s10, s11, s8, s9) := quarterRound s10 s11 s8 s9 in
      let '(s15, s12, s13, s14) := quarterRound s15 s12 s13 s14 in
      [s0; s1; s2; s3; s4; s5; s6; s7; s8; s9; s10; s11; s12; s13; s14; s15]
  | _ => x
  end.

Definition rounds (x : list N) : list N := Nat.iter 10 doubleRound x.

(** The four words of ['expand 32-byte k']. *)
Definition sigma : list N :=
  Eval vm_compute in
    map fromLittleEndian
      (chunks 4 4 (map N_of_ascii (list_ascii_of_string "expand 32-byte k"))).

Definition words (bs : list N) : list N := map fromLittleEndian (chunks (length bs) 4 bs).

Definition unwords (ws : list N) : list N := flat_map (littleEndian 4) ws.

(** The sixteen words the core starts from: constants on the diagonal,
    the key in two halves, the sixteen input bytes in the middle. *)
Definition block (input key : list N) : list N :=
  match sigma, words key, words input with
  | [c0; c1; c2; c3], [k0; k1; k2; k3; k4; k5; k6; k7], [i0; i1; i2; i3] =>
      [c0; k0; k1; k2; k3; c1; i0; i1; i2; i3; c2; k4; k5; k6; k7; c3]
  | _, _, _ => []
  end.

(** [crypto_core_salsa20] *)
Definition core_salsa20 (input key : list N) : list N :=
  let x := block input key in
  unwords (map (fun p => word (fst p + snd p)) (combine (rounds x) x)).

(** [crypto_core_hsalsa20] *)
Definition core_hsalsa20 (input key : list N) : list N :=
  match rounds (block input key) with
  | [s0; _; _; _; _; s5; s6; s7; s8; s9; s10; _; _; _; _; s15] =>
      unwords [s0; s5; s10; s15; s6; s7; s8; s9]
  | _ => []
  end.

Definition xorBytes (a b : list N) : list N :=
  map (fun p => N.lxor (fst p) (snd p)) (combine a b).

(** The blocks of the message, each under the key stream of its counter. *)
Fixpoint streamBlocks (blocks : list (list N)) (counter : N) (nonce key : list N)
    : list N :=
  match blocks with
  | [] => []
  | b :: rest =>
      xorBytes b (core_salsa20 (nonce ++ littleEndian 8 counter) key)
      ++ streamBlocks rest (counter + 1) nonce key
  end.

(** [crypto_stream_salsa20_xor], with a nonce of eight bytes. *)
Definition stream_salsa20_xor (m nonce key : list N) : list N :=
  streamBlocks (chunks (length m) 64 m) 0 nonce key.

(** [crypto_stream_xor]: XSalsa20, with a nonce of 24 bytes. *)
Definition stream_xor (m nonce key : list N) : list N :=
  stream_salsa20_xor m (skipn 16 nonce) (core_hsalsa20 (firstn 16 nonce) key).

(** ** Poly1305 *)

Definition poly1305Prime : N := 2 ^ 130 - 5.

Definition clampR (r : N) : N := N.land r 0x0ffffffc0ffffffc0ffffffc0fffffff.

(** [crypto_onetimeauth]: the 16 bytes of the authenticator of [m] under a
    one-time key of 32 bytes. *)
Definition onetimeauth (m key : list N) : list N :=
  let r := clampR (fromLittleEndian (firstn 16 key)) in
  let s := fromLittleEndian (skipn 16 key) in
  let acc :=
    fold_left
      (fun acc piece => ((acc + fromLittleEndian (piece ++ [1])) * r) mod poly1305Prime)
      (chunks (length m) 16 m) 0 in
  littleEndian 16 (acc + s).

(** ** secretbox *)

Definition zeros (n : nat) : list N := repeat 0 n.

Definition eqBytes (a b : list N) : bool :=
  (length a =? length b)%nat && forallb (fun p => fst p =? snd p) (combine a b).

(** [crypto_secretbox], without the sixteen zero bytes in front. *)
Definition secretboxN (m nonce key : list N) : list N :=
  let c := stream_xor (zeros 32 ++ m) nonce key in
  onetimeauth (skipn 32 c) (firstn 32 c) ++ skipn 32 c.

(** [crypto_secretbox_open] *)
Definition secretboxOpenN (box nonce key : list N) : option (list N) :=
  if (length box <? 16)%nat then None
  else
    let x := stream_xor (zeros 32) nonce key in
    let c := skipn 16 box in
    if eqBytes (firstn 16 box) (onetimeauth c x)
    then Some (skipn 32 (stream_xor (zeros 32 ++ c) nonce key))
    else None.

(** ** The key agreement *)

(** [crypto_scalarmult(q, n, p)] on bytes. *)
Definition scalarmultN (n p : list N) : list N :=
  Curve25519.ofInts (Curve25519.crypto_scalarmult (Curve25519.toInts n) (Curve25519.toInts p)).

Definition basePoint : list N := 9 :: zeros 31.

(** [crypto_box_beforenm] *)
Definition beforeN (pk sk : list N) : list N :=
  core_hsalsa20 (zeros 16) (scalarmultN sk pk).

(** ** The operations on byte arrays *)

Definition toN (b : bytes) : list N := map Byte.to_N b.
Definition ofN (l : list N) : bytes := map byteOfN l.

Definition secretbox (m nonce key : bytes) : bytes :=
  ofN (secretboxN (toN m) (toN nonce) (toN key)).

Definition secretbox_open (box nonce key : bytes) : option bytes :=
  option_map ofN (secretboxOpenN (toN box) (toN nonce) (toN key)).

Definition scalarMult_base (n : bytes) : bytes := ofN (scalarmultN (toN n) basePoint).

Definition before (pk sk : bytes) : bytes := ofN (beforeN (toN pk) (toN sk)).

Definition box (m nonce pk sk : bytes) : bytes := secretbox m nonce (before pk sk).

Definition box_open (c nonce pk sk : bytes) : option bytes :=
  secretbox_open c nonce (before pk sk).

End TweetNaCl.

(** tweetnacl over a counter in the place of the system's random source. *)
Definition tweetnacl : NaCl := {|
  rng := N;
  randomBytes := ToyNaCl.draw;
  secretbox := TweetNaCl.secretbox;
  secretbox_open := TweetNaCl.secretbox_open;
  box := TweetNaCl.box;
  box_open := TweetNaCl.box_open;
  scalarMult_base := TweetNaCl.scalarMult_base;
  hash := SHA512.sha512
|}.

(* ================================================================== *)
(** * Vocabulary of the statements

    Predicates and sample values that the theorems below are stated
    with; none of them is part of the package. *)
(* ================================================================== *)

(** The version byte of every payload the package writes. *)
Definition versionByte : byte := byteOfN CURRENT_PAYLOAD_VERSION.

(** The recipient entry of a member known by user id and secret key. *)
Definition recipientOf {U : Util} {NA : NaCl} (member : string * bytes) : Recipient :=
  {| userId := fst member;
     recipientKey := encodeBase64 (scalarMult_base (snd member)) |}.

Module Shape.
Import JsString.

(** No blank in front. *)
Definition noLeadingBlank (s : jsstring) : Prop :=
  match s with
  | [] => True
  | c :: _ => isWhiteSpace c = false
  end.

(** No blank anywhere. *)
Fixpoint blankFree (s : jsstring) : Prop :=
  match s with
  | [] => True
  | c :: s' => isWhiteSpace c = false /\ blankFree s'
  end.

(** A piece between blanks: not empty, no blank. *)
Definition isPiece (s : jsstring) : Prop := s <> [] /\ blankFree s.

(** No blank at either end: what [trim] leaves. *)
Definition trimmed (t : jsstring) : Prop := noLeadingBlank t /\ trimEnd t = t.

(** A word of a normalised phrase: not empty, no blank, in lower case. *)
Definition isWord {E : Unicode} (s : jsstring) : Prop :=
  s <> [] /\ blankFree s /\ toLowerCase s = s.

(** What [trim] and [toLowerCase] leave: no blank at either end, and
    lower-casing changes nothing. *)
Definition trimmedLower {E : Unicode} (t : jsstring) : Prop :=
  noLeadingBlank t /\ trimEnd t = t /\ toLowerCase t = t.

End Shape.


(** A secret key with bit 0 flipped: the low bit of its first byte. *)
Definition withBit0Flipped (secretKey : bytes) : bytes :=
  match secretKey with
  | [] => []
  | b :: rest => byteOfN (N.lxor (Byte.to_N b) 1) :: rest
  end.

(** The twelve positions. *)
Definition allPositions : list Z := map Z.of_nat (seq 1 12).

(** What holds of the set after [calls] evaluations of the loop body: it
    has no duplicate and holds exactly the positions drawn so far. *)
Definition drawnSoFar (randomIndex : nat -> Z) (calls : nat) (positions : list Z) : Prop :=
  NoDup positions
  /\ forall p, In p positions <-> exists j, (j < calls)%nat /\ p = (randomIndex j + 1)%Z.

Ltac by_division := zify; Z.to_euclidean_division_equations; lia.

Module Sample.

Definition util := referenceUtil.
Definition nacl := referenceNaCl.

(** A symmetric key of 32 bytes [0x07] and its Base64 form. *)
Definition keyBytes : bytes := repeat x07 32.
Definition key : string := "BwcHBwcHBwcHBwcHBwcHBwcHBwcHBwcHBwcHBwcHBwc=".

(** Another symmetric key, 32 bytes [0x08]. *)
Definition otherKey : string := "CAgICAgICAgICAgICAgICAgICAgICAgICAgICAgICAg=".

(** Secret keys of four parties. *)
Definition aliceSecret : bytes := repeat x0a 32.
Definition bobSecret : bytes := repeat x0b 32.
Definition carolSecret : bytes := repeat x0c 32.
Definition eveSecret : bytes := repeat x0e 32.

Definition publicOf (secret : bytes) : bytes := @scalarMult_base nacl secret.
Definition b64 (b : bytes) : string := @encodeBase64 util b.

(** 41 zero bytes: version 0, a zero nonce and 16 zero bytes in the place
    of a ciphertext. *)
Definition zeroPayload : string :=
  "AAAAAAAAAAAAAAAAAAAAAAAAAAAAAAAAAAAAAAAAAAAAAAAAAAAAAAA=".

(** A well-formed version-1 payload that seals [plaintext] from Alice to
    Bob with a fixed nonce. *)
Definition nonce : bytes := repeat x18 24.
Definition sealedFor (plaintext : bytes) : bytes :=
  versionByte :: nonce ++ @box nacl plaintext nonce (publicOf bobSecret) aliceSecret.

(** The test of [crypto_box] in 'Cryptography in NaCl': the secret keys
    of Alice and Bob, the nonce, the message, and what NaCl computes from
    them (the public keys, the shared key, the box). *)
Module NaClPaper.
Definition hex (s : string) : bytes := Bip39.fromHex s.
Definition aliceSecret : bytes :=
  hex "77076d0a7318a57d3c16c17251b26645df4c2f87ebc0992ab177fba51db92c2a".
Definition bobSecret : bytes :=
  hex "5dab087e624a8a4b79e17f8b83800ee66f3bb1292618b6fd1c2f8b27ff88e0eb".
Definition alicePublic : bytes :=
  hex "8520f0098930a754748b7ddcb43ef75a0dbf3a0d26381af4eba4a98eaa9b4e6a".
Definition bobPublic : bytes :=
  hex "de9edb7d7b7dc1b4d35b61c2ece435373f8343c85b78674dadfc7e146f882b4f".
Definition sharedKey : bytes :=
  hex "1b27556473e985d462cd51197a9a46c76009549eac6474f206c4ee0844f68389".
Definition nonce : bytes := hex "69696ee955b62b73cd62bda875fc73d68219e0036b7a0b37".
Definition message : bytes :=
  hex ("be075fc53c81f2d5cf141316ebeb0c7b5228c52a4c62cbd44b66849b64244ffc"
       ++ "e5ecbaaf33bd751a1ac728d45e6c61296cdc3c01233561f41db66cce314adb31"
       ++ "0e3be8250c46f06dceea3a7fa1348057e2f6556ad6b1318a024a838f21af1fde"
       ++ "048977eb48f59ffd4924ca1c60902e52f0a089bc76897040e082f93776384864"
       ++ "5e0705").
Definition boxed : bytes :=
  hex ("f3ffc7703f9400e52a7dfb4b3d3305d9"
       ++ "8e993b9f48681273c29650ba32fc76ce48332ea7164d96a4476fb8c531a1186a"
       ++ "c0dfc17c98dce87b4da7f011ec48c97271d2c20f9b928fe2270d6fb863d51738"
       ++ "b48eeee314a7cc8ab932164548e526ae90224368517acfeabd6bb3732bc0e9da"
       ++ "99832b61ca01b6de56244a9e88d5f9b37973f622a43d14a6599b1f654cb45a74"
       ++ "e355a5").
(** SHA-512 of ['abc'] (FIPS 180-4). *)
Definition abcDigest : bytes :=
  hex ("ddaf35a193617abacc417349ae20413112e6fa4e89a97ea20a9eeee64b55d39a"
       ++ "2192992a274fc1a836ba3c23a3feebbd454d4423643ce80e2a9ac94fa54ca49f").
End NaClPaper.

Definition unicode := asciiUnicode.

Definition js (s : string) : JsString.jsstring := JsString.ofAscii s.

(** The first four entries of the English BIP-39 wordlist. *)
Definition englishHead : list JsString.jsstring :=
  map js ["abandon"%string; "ability"%string; "able"%string; "about"%string].

(** The standard test phrase of the repository's tests (entropy zero). *)
Definition testPhrase : JsString.jsstring :=
  js "abandon abandon abandon abandon abandon abandon abandon abandon abandon abandon abandon about".

(** The same twelve words with two blanks after the first. *)
Definition spacedPhrase : JsString.jsstring :=
  js "abandon  abandon abandon abandon abandon abandon abandon abandon abandon abandon abandon about".

End Sample.

(* ================================================================== *)
(** * Payload layout *)
(* ================================================================== *)

Lemma byteOfN_to_N (b : byte) : byteOfN (Byte.to_N b) = b.
Proof. unfold byteOfN. now rewrite Byte.of_to_N. Qed.

Lemma to_N_byteOfN (n : N) : (n < 256)%N -> Byte.to_N (byteOfN n) = n.
Proof.
  intros Hn. unfold byteOfN.
  destruct (Byte.of_N n) as [b|] eqn:E.
  - now apply Byte.to_of_N.
  - apply Byte.of_N_None_iff in E. lia.
Qed.

Lemma to_N_lt_256 (b : byte) : (Byte.to_N b < 256)%N.
Proof. pose proof (Byte.to_N_bounded b). lia. Qed.

Lemma skipn_app_exact {A} (l1 l2 : list A) n :
  length l1 = n -> skipn n (l1 ++ l2) = l2.
Proof.
  intros <-. rewrite skipn_app, skipn_all, Nat.sub_diag. reflexivity.
Qed.

Lemma firstn_app_exact {A} (l1 l2 : list A) n :
  length l1 = n -> firstn n (l1 ++ l2) = l1.
Proof.
  intros <-. rewrite firstn_app, firstn_all, Nat.sub_diag, firstn_O.
  apply app_nil_r.
Qed.


Section PayloadFacts.

Context {U : Util} {NA : NaCl}.

Lemma typedArraySet_middle (pre mid post source : bytes) (offset : nat) :
  length pre = offset -> length mid = length source ->
  typedArraySet (pre ++ mid ++ post) source offset = Ok (pre ++ source ++ post).
Proof.
  intros Hp Hm. unfold typedArraySet.
  rewrite !length_app.
  replace (offset + length source <=? length pre + (length mid + length post)) with true
    by (symmetry; apply Nat.leb_le; lia).
  f_equal. rewrite firstn_app_exact by assumption. f_equal. f_equal.
  rewrite skipn_app, skipn_all2 by lia.
  rewrite Hp. replace (offset + length source - offset) with (length mid) by lia.
  now rewrite skipn_app_exact.
Qed.

(** With a 24-byte nonce the three writes of the source produce
    [[version] ++ nonce ++ ciphertext]. *)
Lemma assemblePayload_layout (nonce ciphertext : bytes) :
  length nonce = 24 ->
  assemblePayload nonce ciphertext = Ok (versionByte :: nonce ++ ciphertext).
Proof.
  intros Hn. unfold assemblePayload, newUint8Array.
  change (PAYLOAD_STRUCTURE.VERSION_BYTES + PAYLOAD_STRUCTURE.NONCE_BYTES
          + length ciphertext) with (1 + (24 + length ciphertext)).
  rewrite !repeat_app. change (repeat x00 1) with [x00].
  unfold setIndex. cbn [length Nat.ltb Nat.leb firstn skipn app].
  fold versionByte.
  change (versionByte :: repeat x00 24 ++ repeat x00 (length ciphertext))
    with ([versionByte] ++ repeat x00 24 ++ repeat x00 (length ciphertext)).
  rewrite typedArraySet_middle; [ | reflexivity | now rewrite repeat_length ].
  cbn [bind].
  change (PAYLOAD_STRUCTURE.VERSION_BYTES + PAYLOAD_STRUCTURE.NONCE_BYTES) with 25.
  replace ([versionByte] ++ nonce ++ repeat x00 (length ciphertext))
    with ((versionByte :: nonce) ++ repeat x00 (length ciphertext) ++ [])
    by (now rewrite app_nil_r).
  rewrite typedArraySet_middle.
  - now rewrite app_nil_r.
  - cbn [length]. now rewrite Hn.
  - apply repeat_length.
Qed.

Lemma payload_nonce (v : byte) (nonce ciphertext : bytes) :
  length nonce = 24 ->
  slice (v :: nonce ++ ciphertext) PAYLOAD_STRUCTURE.VERSION_BYTES
    (PAYLOAD_STRUCTURE.VERSION_BYTES + PAYLOAD_STRUCTURE.NONCE_BYTES) = nonce.
Proof.
  intros Hn. unfold slice.
  change (firstn 24 (nonce ++ ciphertext) = nonce).
  now apply firstn_app_exact.
Qed.

Lemma payload_ciphertext (v : byte) (nonce ciphertext : bytes) :
  length nonce = 24 ->
  sliceFrom (v :: nonce ++ ciphertext)
    (PAYLOAD_STRUCTURE.VERSION_BYTES + PAYLOAD_STRUCTURE.NONCE_BYTES) = ciphertext.
Proof.
  intros Hn. unfold sliceFrom.
  change (skipn 24 (nonce ++ ciphertext) = ciphertext).
  now apply skipn_app_exact.
Qed.

Lemma decodeBase64_encodeBase64 {UL : UtilLaws U} (b : bytes) :
  decodeBase64 (encodeBase64 b) = Ok b.
Proof. unfold decodeBase64. now rewrite decode_encode. Qed.

Lemma encodeBase64_injective {UL : UtilLaws U} (a b : bytes) :
  encodeBase64 a = encodeBase64 b -> a = b.
Proof.
  intros H. apply (f_equal decodeBase64_opt) in H.
  rewrite !decode_encode in H. congruence.
Qed.

End PayloadFacts.

(* ================================================================== *)
(** * Content encryption: [encrypt] and [decrypt] *)
(* ================================================================== *)

Lemma versionByte_value : Byte.to_N versionByte = 1%N.
Proof. reflexivity. Qed.

Section ContentEncryption.

Context {U : Util} {NA : NaCl}.

(** What [encrypt] returns for a key that decodes to 32 bytes: the
    payload around the nonce it drew. *)
Lemma encrypt_ok {NL : NaClLaws NA} (data : bytes) (key : string) (keyBytes : bytes) (g : rng) :
  decodeBase64 key = Ok keyBytes ->
  length keyBytes = 32 ->
  encrypt data key g =
    (Ok (encodeBase64
           (versionByte :: fst (randomBytes 24 g)
              ++ secretbox data (fst (randomBytes 24 g)) keyBytes)),
     snd (randomBytes 24 g)).
Proof.
  intros Hkey Hlen. unfold encrypt, bindR, liftR, drawR, retR.
  rewrite Hkey, Hlen. cbn [KEY_LENGTHS.SECRET_KEY Nat.eqb negb].
  change PAYLOAD_STRUCTURE.NONCE_BYTES with 24.
  pose proof (randomBytes_length 24 g) as Hnonce.
  destruct (randomBytes 24 g) as [nonce g']. cbn [fst snd] in *.
  now rewrite assemblePayload_layout.
Qed.

(** The order of the checks of [decrypt] once both arguments decode. *)
Lemma decrypt_decoded (payload key : string) (payloadBytes keyBytes : bytes) :
  decodeBase64 payload = Ok payloadBytes ->
  decodeBase64 key = Ok keyBytes ->
  length keyBytes = 32 ->
  decrypt payload key =
    if length payloadBytes <? 41 then Throw PayloadTooShort
    else
      match nth_error payloadBytes 0 with
      | None => Throw (UnknownVersion None)
      | Some version =>
          if (1 <? Byte.to_N version)%N then Throw (UnknownVersion (Some version))
          else if (Byte.to_N version =? 1)%N then decryptV1 payloadBytes keyBytes
          else Throw (UnsupportedVersion version)
      end.
Proof.
  intros Hp Hk Hlen. unfold decrypt. rewrite Hp, Hk. cbn [bind]. rewrite Hlen.
  cbn [KEY_LENGTHS.SECRET_KEY Nat.eqb].
  change (PAYLOAD_STRUCTURE.VERSION_BYTES + PAYLOAD_STRUCTURE.NONCE_BYTES
          + PAYLOAD_STRUCTURE.AUTH_TAG_BYTES) with 41.
  now destruct (length payloadBytes <? 41).
Qed.

Lemma decryptV1_unfold (payloadBytes keyBytes : bytes) :
  decryptV1 payloadBytes keyBytes =
    match secretbox_open (sliceFrom payloadBytes 25) (slice payloadBytes 1 25) keyBytes with
    | None => Throw DecryptionFailed
    | Some decrypted => Ok decrypted
    end.
Proof. reflexivity. Qed.

End ContentEncryption.

(** C1. For every byte buffer [d] (the empty one included) and every key
    string that decodes to 32 bytes, [encrypt d key] returns a payload, and
    [decrypt] of that payload under the same key returns exactly [d]. *)
Theorem decrypt_encrypt_roundtrip
    (U : Util) (NA : NaCl) (UL : UtilLaws U) (NL : NaClLaws NA)
    (d : bytes) (key : string) (keyBytes : bytes) (g : rng) :
  decodeBase64 key = Ok keyBytes ->
  length keyBytes = 32 ->
  exists payload : string,
    fst (encrypt d key g) = Ok payload /\ decrypt payload key = Ok d.
Proof.
  intros Hkey Hlen.
  rewrite (encrypt_ok d key g Hkey Hlen). cbn [fst].
  eexists. split; [ reflexivity | ].
  pose proof (randomBytes_length 24 g) as Hnonce.
  set (nonce := fst (randomBytes 24 g)) in *.
  rewrite (decrypt_decoded _ _ (decodeBase64_encodeBase64 _) Hkey Hlen).
  cbn [length nth_error]. rewrite length_app, secretbox_length, Hnonce by assumption.
  replace (S (24 + (length d + 16)) <? 41) with false
    by (symmetry; apply Nat.ltb_ge; lia).
  rewrite versionByte_value. cbn [N.ltb N.eqb N.compare Pos.compare Pos.compare_cont Pos.eqb].
  unfold decryptV1.
  rewrite payload_nonce, payload_ciphertext by assumption.
  now rewrite secretbox_open_secretbox.
Qed.

(** C7. Two calls of [encrypt] on the same plaintext and key, the second
    in the state the first left the random source in: whenever the two
    24-byte nonces drawn differ, both calls return a payload and the two
    payloads differ. *)
Theorem encrypt_twice_differs
    (U : Util) (NA : NaCl) (UL : UtilLaws U) (NL : NaClLaws NA)
    (d : bytes) (key : string) (keyBytes : bytes) (g : rng) :
  decodeBase64 key = Ok keyBytes ->
  length keyBytes = 32 ->
  let first := encrypt d key g in
  let second := encrypt d key (snd first) in
  fst (randomBytes PAYLOAD_STRUCTURE.NONCE_BYTES g)
    <> fst (randomBytes PAYLOAD_STRUCTURE.NONCE_BYTES (snd first)) ->
  exists p1 p2 : string,
    fst first = Ok p1 /\ fst second = Ok p2 /\ p1 <> p2.
Proof.
  intros Hkey Hlen first second. subst first second.
  change PAYLOAD_STRUCTURE.NONCE_BYTES with 24.
  rewrite (encrypt_ok d key g Hkey Hlen). cbn [fst snd].
  set (g' := snd (randomBytes 24 g)).
  rewrite (encrypt_ok d key g' Hkey Hlen). cbn [fst].
  intros Hdiff. do 2 eexists. split; [ reflexivity | split; [ reflexivity | ] ].
  intros Heq. apply encodeBase64_injective in Heq.
  injection Heq as Heq. apply Hdiff.
  apply (f_equal (firstn 24)) in Heq.
  now rewrite !firstn_app_exact in Heq by apply randomBytes_length.
Qed.

(** C5, as the code has it.  For every payload and key that decode, the
    key to 32 bytes: a payload shorter than 1 + 24 + 16 bytes fails with
    [PayloadTooShort]; otherwise a version byte above 1 fails with
    [UnknownVersion]; otherwise version 0 fails with [UnsupportedVersion]
    before any decryption; otherwise (version 1) a ciphertext that
    [secretbox_open] rejects fails with [DecryptionFailed], and one it
    accepts is returned whole.  Whatever [decrypt] returns is the complete
    output of the authenticated decryption. *)
Theorem decrypt_error_order
    (U : Util) (NA : NaCl)
    (payload key : string) (payloadBytes keyBytes : bytes) :
  decodeBase64 payload = Ok payloadBytes ->
  decodeBase64 key = Ok keyBytes ->
  length keyBytes = 32 ->
  let nonce := slice payloadBytes 1 25 in
  let ciphertext := sliceFrom payloadBytes 25 in
  (length payloadBytes < 1 + 24 + 16 -> decrypt payload key = Throw PayloadTooShort)
  /\ (1 + 24 + 16 <= length payloadBytes ->
      exists version : byte,
        nth_error payloadBytes 0 = Some version
        /\ ((1 < Byte.to_N version)%N ->
            decrypt payload key = Throw (UnknownVersion (Some version)))
        /\ (Byte.to_N version = 0%N ->
            decrypt payload key = Throw (UnsupportedVersion version))
        /\ (Byte.to_N version = 1%N ->
            secretbox_open ciphertext nonce keyBytes = None ->
            decrypt payload key = Throw DecryptionFailed)
        /\ (Byte.to_N version = 1%N ->
            forall data, secretbox_open ciphertext nonce keyBytes = Some data ->
            decrypt payload key = Ok data))
  /\ (forall data, decrypt payload key = Ok data ->
      secretbox_open ciphertext nonce keyBytes = Some data).
Proof.
  intros Hp Hk Hlen nonce ciphertext. subst nonce ciphertext.
  rewrite (decrypt_decoded _ _ Hp Hk Hlen), decryptV1_unfold.
  split; [ | split ].
  - intros Hshort.
    now replace (length payloadBytes <? 41) with true by (symmetry; apply Nat.ltb_lt; lia).
  - intros Hlong.
    replace (length payloadBytes <? 41) with false by (symmetry; apply Nat.ltb_ge; lia).
    destruct payloadBytes as [|version rest]; [ cbn in Hlong; lia | ].
    exists version. cbn [nth_error]. split; [ reflexivity | ].
    repeat split.
    + intros Hv. now replace (1 <? Byte.to_N version)%N with true
        by (symmetry; apply N.ltb_lt; lia).
    + intros Hv. now rewrite Hv.
    + intros Hv Hopen. rewrite Hv. cbn [N.ltb N.eqb N.compare Pos.compare Pos.compare_cont Pos.eqb].
      now rewrite Hopen.
    + intros Hv data Hopen. rewrite Hv. cbn [N.ltb N.eqb N.compare Pos.compare Pos.compare_cont Pos.eqb].
      now rewrite Hopen.
  - intros data.
    destruct (length payloadBytes <? 41); [ discriminate | ].
    destruct (nth_error payloadBytes 0) as [version|]; [ | discriminate ].
    destruct (1 <? Byte.to_N version)%N; [ discriminate | ].
    destruct (Byte.to_N version =? 1)%N; [ | discriminate ].
    destruct (secretbox_open _ _ keyBytes); [ congruence | discriminate ].
Qed.

(* ================================================================== *)
(** * Key exchange: [encryptKeyForRecipient] and [decryptKeyFromSender] *)
(* ================================================================== *)

Section KeyExchange.

Context {U : Util} {NA : NaCl}.

Lemma encryptKeyForRecipient_ok {NL : NaClLaws NA}
    (symmetricKey recipientPublicKey senderPrivateKey : string)
    (keyBytes recipientPub senderPriv : bytes) (g : rng) :
  decodeBase64 symmetricKey = Ok keyBytes ->
  decodeBase64 recipientPublicKey = Ok recipientPub ->
  decodeBase64 senderPrivateKey = Ok senderPriv ->
  length keyBytes = 32 -> length recipientPub = 32 -> length senderPriv = 32 ->
  encryptKeyForRecipient symmetricKey recipientPublicKey senderPrivateKey g =
    (Ok (encodeBase64
           (versionByte :: fst (randomBytes 24 g)
              ++ box keyBytes (fst (randomBytes 24 g)) recipientPub senderPriv)),
     snd (randomBytes 24 g)).
Proof.
  intros Hk Hr Hs Lk Lr Ls. unfold encryptKeyForRecipient, bindR, liftR, drawR, retR.
  rewrite Hk, Hr, Hs, Lk, Lr, Ls.
  cbn [KEY_LENGTHS.SECRET_KEY KEY_LENGTHS.PUBLIC_KEY KEY_LENGTHS.PRIVATE_KEY Nat.eqb negb].
  change PAYLOAD_STRUCTURE.NONCE_BYTES with 24.
  pose proof (randomBytes_length 24 g) as Hnonce.
  destruct (randomBytes 24 g) as [nonce g']. cbn [fst snd] in *.
  now rewrite assemblePayload_layout.
Qed.

(** A call of [encryptKeyForRecipient] that throws does so before it
    draws the nonce: whether it throws does not depend on the random
    source. *)
Lemma encryptKeyForRecipient_throw_any_state {NL : NaClLaws NA}
    (symmetricKey recipientPublicKey senderPrivateKey : string) (g g' : rng) (e : error) :
  fst (encryptKeyForRecipient symmetricKey recipientPublicKey senderPrivateKey g) = Throw e ->
  encryptKeyForRecipient symmetricKey recipientPublicKey senderPrivateKey g' = (Throw e, g').
Proof.
  unfold encryptKeyForRecipient, bindR, liftR, drawR, retR.
  destruct (decodeBase64 symmetricKey) as [keyBytes|]; [ | cbn; congruence ].
  destruct (decodeBase64 recipientPublicKey) as [recipientPub|]; [ | cbn; congruence ].
  destruct (decodeBase64 senderPrivateKey) as [senderPriv|]; [ | cbn; congruence ].
  destruct (negb (length keyBytes =? KEY_LENGTHS.SECRET_KEY)); [ cbn; congruence | ].
  destruct (negb (length recipientPub =? KEY_LENGTHS.PUBLIC_KEY)); [ cbn; congruence | ].
  destruct (negb (length senderPriv =? KEY_LENGTHS.PRIVATE_KEY)); [ cbn; congruence | ].
  pose proof (randomBytes_length PAYLOAD_STRUCTURE.NONCE_BYTES g) as Hnonce.
  destruct (randomBytes PAYLOAD_STRUCTURE.NONCE_BYTES g) as [nonce g1].
  cbn [fst] in Hnonce. rewrite assemblePayload_layout by exact Hnonce.
  cbn [fst]. discriminate.
Qed.

(** The order of the checks of [decryptKeyFromSender] once its three
    arguments decode and both keys have 32 bytes. *)
Lemma decryptKeyFromSender_decoded
    (encryptedKey senderPublicKey recipientPrivateKey : string)
    (payloadBytes senderPub recipientPriv : bytes) :
  decodeBase64 encryptedKey = Ok payloadBytes ->
  decodeBase64 senderPublicKey = Ok senderPub ->
  decodeBase64 recipientPrivateKey = Ok recipientPriv ->
  length senderPub = 32 -> length recipientPriv = 32 ->
  decryptKeyFromSender encryptedKey senderPublicKey recipientPrivateKey =
    if length payloadBytes <? 73 then Throw PayloadTooShort
    else
      match nth_error payloadBytes 0 with
      | None => Throw (UnknownVersion None)
      | Some version =>
          if (1 <? Byte.to_N version)%N then Throw (UnknownVersion (Some version))
          else
            match box_open (sliceFrom payloadBytes 25) (slice payloadBytes 1 25)
                    senderPub recipientPriv with
            | None => Throw DecryptionFailed
            | Some decrypted =>
                if length decrypted =? 32 then Ok (encodeBase64 decrypted)
                else Throw CorruptKey
            end
      end.
Proof.
  intros Hp Hs Hr Ls Lr. unfold decryptKeyFromSender.
  rewrite Hp, Hs, Hr. cbn [bind]. rewrite Ls, Lr.
  cbn [KEY_LENGTHS.PUBLIC_KEY KEY_LENGTHS.PRIVATE_KEY Nat.eqb].
  change (PAYLOAD_STRUCTURE.VERSION_BYTES + PAYLOAD_STRUCTURE.NONCE_BYTES
          + KEY_LENGTHS.SECRET_KEY + PAYLOAD_STRUCTURE.AUTH_TAG_BYTES) with 73.
  now destruct (length payloadBytes <? 73).
Qed.

(** Decrypting a payload written by [encryptKeyForRecipient] around a
    32-byte secret, with any two 32-byte keys. *)
Lemma decryptKeyFromSender_sealed {UL : UtilLaws U} {NL : NaClLaws NA}
    (s nonce pk sk senderPub recipientPriv : bytes) :
  length s = 32 -> length nonce = 24 -> length pk = 32 -> length sk = 32 ->
  length senderPub = 32 -> length recipientPriv = 32 ->
  decryptKeyFromSender
    (encodeBase64 (versionByte :: nonce ++ box s nonce pk sk))
    (encodeBase64 senderPub) (encodeBase64 recipientPriv) =
  match box_open (box s nonce pk sk) nonce senderPub recipientPriv with
  | None => Throw DecryptionFailed
  | Some decrypted =>
      if length decrypted =? 32 then Ok (encodeBase64 decrypted) else Throw CorruptKey
  end.
Proof.
  intros Ls Ln Lpk Lsk Lp Lr.
  rewrite (decryptKeyFromSender_decoded _ _ _
             (decodeBase64_encodeBase64 _) (decodeBase64_encodeBase64 _)
             (decodeBase64_encodeBase64 _) Lp Lr).
  cbn [length nth_error]. rewrite length_app, box_length, Ln, Ls by assumption.
  cbn [Nat.add Nat.ltb Nat.leb].
  rewrite versionByte_value. cbn [N.ltb N.compare Pos.compare Pos.compare_cont].
  change (slice (versionByte :: nonce ++ box s nonce pk sk) 1 25)
    with (slice (versionByte :: nonce ++ box s nonce pk sk)
            PAYLOAD_STRUCTURE.VERSION_BYTES
            (PAYLOAD_STRUCTURE.VERSION_BYTES + PAYLOAD_STRUCTURE.NONCE_BYTES)).
  change (sliceFrom (versionByte :: nonce ++ box s nonce pk sk) 25)
    with (sliceFrom (versionByte :: nonce ++ box s nonce pk sk)
            (PAYLOAD_STRUCTURE.VERSION_BYTES + PAYLOAD_STRUCTURE.NONCE_BYTES)).
  now rewrite payload_nonce, payload_ciphertext by assumption.
Qed.

(** A payload that seals fewer than 32 bytes is shorter than the 73 bytes
    [decryptKeyFromSender] asks for: the call stops before it decrypts. *)
Lemma decryptKeyFromSender_sealed_short {UL : UtilLaws U} {NL : NaClLaws NA}
    (s nonce pk sk senderPub recipientPriv : bytes) :
  length s < 32 -> length nonce = 24 -> length pk = 32 -> length sk = 32 ->
  length senderPub = 32 -> length recipientPriv = 32 ->
  decryptKeyFromSender
    (encodeBase64 (versionByte :: nonce ++ box s nonce pk sk))
    (encodeBase64 senderPub) (encodeBase64 recipientPriv) = Throw PayloadTooShort.
Proof.
  intros Ls Ln Lpk Lsk Lp Lr.
  rewrite (decryptKeyFromSender_decoded _ _ _
             (decodeBase64_encodeBase64 _) (decodeBase64_encodeBase64 _)
             (decodeBase64_encodeBase64 _) Lp Lr).
  cbn [length]. rewrite length_app, box_length, Ln by assumption.
  now replace (S (24 + (length s + 16)) <? 73) with true
    by (symmetry; apply Nat.ltb_lt; lia).
Qed.

End KeyExchange.


(** C8, as the code has it.  [decryptKeyFromSender] never returns anything
    but the Base64 encoding of a 32-byte plaintext that the authenticated
    decryption released.  For a payload and two 32-byte keys under which
    the authenticated decryption of the ciphertext succeeds with a
    plaintext that is not 32 bytes long: a payload shorter than 73 bytes
    fails with [PayloadTooShort] before any decryption, and that is the
    case of every plaintext shorter than 32 bytes; a payload of 73 bytes
    or more fails with [CorruptKey] when its version byte is at most 1,
    and with [UnknownVersion] otherwise. *)
Theorem decryptKeyFromSender_key_length
    (U : Util) (NA : NaCl) (NL : NaClLaws NA)
    (encryptedKey senderPublicKey recipientPrivateKey : string)
    (payloadBytes senderPub recipientPriv : bytes) :
  decodeBase64 encryptedKey = Ok payloadBytes ->
  decodeBase64 senderPublicKey = Ok senderPub ->
  decodeBase64 recipientPrivateKey = Ok recipientPriv ->
  length senderPub = 32 -> length recipientPriv = 32 ->
  let nonce := slice payloadBytes 1 25 in
  let ciphertext := sliceFrom payloadBytes 25 in
  let outcome := decryptKeyFromSender encryptedKey senderPublicKey recipientPrivateKey in
  (forall out : string,
      outcome = Ok out ->
      exists m : bytes,
        box_open ciphertext nonce senderPub recipientPriv = Some m
        /\ length m = 32 /\ out = encodeBase64 m)
  /\ (forall m : bytes,
        box_open ciphertext nonce senderPub recipientPriv = Some m ->
        length m <> 32 ->
        (length payloadBytes < 73 -> outcome = Throw PayloadTooShort)
        /\ (73 <= length payloadBytes ->
            exists version : byte,
              nth_error payloadBytes 0 = Some version
              /\ ((Byte.to_N version <= 1)%N -> outcome = Throw CorruptKey)
              /\ ((1 < Byte.to_N version)%N ->
                  outcome = Throw (UnknownVersion (Some version))))
        /\ (25 <= length payloadBytes ->
            (length m < 32 <-> length payloadBytes < 73))).
Proof.
  intros Hp Hs Hr Ls Lr nonce ciphertext outcome. subst nonce ciphertext outcome.
  rewrite (decryptKeyFromSender_decoded _ _ _ Hp Hs Hr Ls Lr).
  split.
  - intros out.
    destruct (length payloadBytes <? 73); [ discriminate | ].
    destruct (nth_error payloadBytes 0) as [version|]; [ | discriminate ].
    destruct (1 <? Byte.to_N version)%N; [ discriminate | ].
    destruct (box_open _ _ senderPub recipientPriv) as [m|]; [ | discriminate ].
    destruct (length m =? 32) eqn:E; [ | discriminate ].
    intros [= <-]. exists m. apply Nat.eqb_eq in E. auto.
  - intros m Hopen Hne. split; [ | split ].
    + intros Hshort.
      now replace (length payloadBytes <? 73) with true
        by (symmetry; apply Nat.ltb_lt; lia).
    + intros Hlong.
      replace (length payloadBytes <? 73) with false
        by (symmetry; apply Nat.ltb_ge; lia).
      destruct payloadBytes as [|version rest]; [ cbn in Hlong; lia | ].
      exists version. cbn [nth_error]. split; [ reflexivity | ]. split.
      * intros Hv.
        replace (1 <? Byte.to_N version)%N with false
          by (symmetry; apply N.ltb_ge; lia).
        rewrite Hopen.
        now replace (length m =? 32) with false by (symmetry; apply Nat.eqb_neq; lia).
      * intros Hv.
        now replace (1 <? Byte.to_N version)%N with true
          by (symmetry; apply N.ltb_lt; lia).
    + intros Hnonce.
      assert (Hlen : length (sliceFrom payloadBytes 25) = length m + 16).
      { eapply box_open_length; [ | exact Ls | exact Lr | exact Hopen ].
        unfold slice. rewrite length_firstn, length_skipn. lia. }
      unfold sliceFrom in Hlen. rewrite length_skipn in Hlen. lia.
Qed.

(* ================================================================== *)
(** * Gallery key distribution: [encryptGalleryKeyForMembers] *)
(* ================================================================== *)


Section Distribution.

Context {U : Util} {NA : NaCl}.

Lemma encryptGalleryKeyForMembers_cons
    (galleryKey senderPrivateKey : string) (r : Recipient) (rest : list Recipient) (g : rng) :
  encryptGalleryKeyForMembers galleryKey (r :: rest) senderPrivateKey g =
    match encryptKeyForRecipient galleryKey (recipientKey r) senderPrivateKey g with
    | (Ok encrypted, g1) =>
        match encryptGalleryKeyForMembers galleryKey rest senderPrivateKey g1 with
        | (Ok grants, g2) =>
            (Ok ({| grantUserId := userId r; encryptedGalleryKey := encrypted |} :: grants), g2)
        | (Throw e, g2) => (Throw e, g2)
        end
    | (Throw e, g1) => (Throw e, g1)
    end.
Proof.
  unfold encryptGalleryKeyForMembers. cbn [mapR]. unfold bindR, retR.
  destruct (encryptKeyForRecipient galleryKey (recipientKey r) senderPrivateKey g)
    as [[encrypted|e] g1]; reflexivity.
Qed.

Lemma encryptGalleryKeyForMembers_userIds
    (galleryKey senderPrivateKey : string) (recipients : list Recipient) :
  forall (g : rng) (grants : list Grant),
    fst (encryptGalleryKeyForMembers galleryKey recipients senderPrivateKey g) = Ok grants ->
    map grantUserId grants = map userId recipients.
Proof.
  induction recipients as [|r rest IH]; intros g grants.
  - cbn. now intros [= <-].
  - rewrite encryptGalleryKeyForMembers_cons.
    destruct (encryptKeyForRecipient _ _ _ g) as [[encrypted|e] g1]; [ | discriminate ].
    specialize (IH g1).
    destruct (encryptGalleryKeyForMembers _ rest _ g1) as [[tail|e] g2]; [ | discriminate ].
    cbn [fst] in *. intros [= <-]. cbn [map grantUserId]. f_equal. now apply IH.
Qed.

Lemma encryptGalleryKeyForMembers_fails_with {NL : NaClLaws NA}
    (galleryKey senderPrivateKey : string) (recipients : list Recipient)
    (r : Recipient) (g0 : rng) (e : error) :
  In r recipients ->
  fst (encryptKeyForRecipient galleryKey (recipientKey r) senderPrivateKey g0) = Throw e ->
  forall g : rng,
    exists e' : error,
      fst (encryptGalleryKeyForMembers galleryKey recipients senderPrivateKey g) = Throw e'.
Proof.
  intros Hin Hthrow.
  induction recipients as [|r' rest IH]; [ contradiction | ]. intros g.
  rewrite encryptGalleryKeyForMembers_cons.
  destruct Hin as [-> | Hin].
  - rewrite (encryptKeyForRecipient_throw_any_state _ _ _ g0 g Hthrow). now exists e.
  - destruct (encryptKeyForRecipient _ _ _ g) as [[encrypted|e1] g1]; [ | now exists e1 ].
    destruct (IH Hin g1) as [e' He'].
    destruct (encryptGalleryKeyForMembers _ rest _ g1) as [[tail|e2] g2];
      [ discriminate | now exists e2 ].
Qed.

Lemma encryptGalleryKeyForMembers_recovers {UL : UtilLaws U} {NL : NaClLaws NA}
    (galleryKey senderPrivateKey : string) (k skOwner : bytes)
    (members : list (string * bytes)) :
  decodeBase64 galleryKey = Ok k -> length k = 32 ->
  decodeBase64 senderPrivateKey = Ok skOwner -> length skOwner = 32 ->
  Forall (fun member => length (snd member) = 32) members ->
  forall g : rng,
    exists grants : list Grant,
      fst (encryptGalleryKeyForMembers galleryKey (map recipientOf members)
             senderPrivateKey g) = Ok grants
      /\ Forall2
           (fun member grant =>
              grantUserId grant = fst member
              /\ decryptKeyFromSender (encryptedGalleryKey grant)
                   (encodeBase64 (scalarMult_base skOwner)) (encodeBase64 (snd member))
                 = Ok (encodeBase64 k))
           members grants.
Proof.
  intros Hk Lk Hs Ls Hall.
  induction Hall as [|[uid sk] rest Lsk Hrest IH]; intros g.
  - exists []. split; [ reflexivity | constructor ].
  - cbn [map snd] in *. rewrite encryptGalleryKeyForMembers_cons.
    pose proof (scalarMult_base_length sk Lsk) as Lpk.
    pose proof (scalarMult_base_length skOwner Ls) as LpO.
    pose proof (randomBytes_length 24 g) as Ln.
    unfold recipientOf at 1. cbn [recipientKey userId fst snd].
    rewrite encryptKeyForRecipient_ok
      with (keyBytes := k) (recipientPub := scalarMult_base sk) (senderPriv := skOwner);
      try apply decodeBase64_encodeBase64; try assumption.
    destruct (IH (snd (randomBytes 24 g))) as (grants & Hgrants & Hrec).
    destruct (encryptGalleryKeyForMembers _ _ _ _) as [[tail|e] g2];
      cbn [fst] in Hgrants; [ | discriminate ].
    injection Hgrants as ->.
    eexists. split; [ reflexivity | ].
    constructor; [ | exact Hrec ].
    cbn [grantUserId encryptedGalleryKey fst snd]. split; [ reflexivity | ].
    rewrite decryptKeyFromSender_sealed by assumption.
    rewrite box_open_box by assumption. now rewrite Lk.
Qed.

End Distribution.

(** C6. [encryptGalleryKeyForMembers] returns, when it returns, exactly
    one grant per input recipient, in the order of the input and carrying
    that recipient's user id; for a 32-byte gallery key, a 32-byte sender
    key and members with 32-byte keys, it does return, and each member's
    private key recovers exactly the gallery key (the Base64 form of its
    32 bytes) from that member's grant; and if [encryptKeyForRecipient]
    fails for one recipient of the list, the whole batch fails and no
    grant list is returned. *)
Theorem encryptGalleryKeyForMembers_grants
    (U : Util) (NA : NaCl) (UL : UtilLaws U) (NL : NaClLaws NA)
    (galleryKey senderPrivateKey : string) (g : rng) :
  (forall (recipients : list Recipient) (grants : list Grant),
      fst (encryptGalleryKeyForMembers galleryKey recipients senderPrivateKey g) = Ok grants ->
      length grants = length recipients
      /\ map grantUserId grants = map userId recipients)
  /\ (forall (k skOwner : bytes) (members : list (string * bytes)),
        decodeBase64 galleryKey = Ok k -> length k = 32 ->
        decodeBase64 senderPrivateKey = Ok skOwner -> length skOwner = 32 ->
        Forall (fun member => length (snd member) = 32) members ->
        exists grants : list Grant,
          fst (encryptGalleryKeyForMembers galleryKey (map recipientOf members)
                 senderPrivateKey g) = Ok grants
          /\ Forall2
               (fun member grant =>
                  grantUserId grant = fst member
                  /\ decryptKeyFromSender (encryptedGalleryKey grant)
                       (encodeBase64 (scalarMult_base skOwner))
                       (encodeBase64 (snd member))
                     = Ok (encodeBase64 k))
               members grants)
  /\ (forall (recipients : list Recipient) (r : Recipient) (g0 : rng) (e : error),
        In r recipients ->
        fst (encryptKeyForRecipient galleryKey (recipientKey r) senderPrivateKey g0)
          = Throw e ->
        exists e' : error,
          fst (encryptGalleryKeyForMembers galleryKey recipients senderPrivateKey g)
            = Throw e').
Proof.
  split; [ | split ].
  - intros recipients grants Hok.
    pose proof (encryptGalleryKeyForMembers_userIds _ _ _ _ Hok) as Hids.
    split; [ | exact Hids ].
    apply (f_equal (@length string)) in Hids. now rewrite !length_map in Hids.
  - intros k skOwner members Hk Lk Hs Ls Hall.
    now apply encryptGalleryKeyForMembers_recovers.
  - intros recipients r g0 e Hin Hthrow.
    now apply encryptGalleryKeyForMembers_fails_with with (r := r) (g0 := g0) (e := e).
Qed.

(* ================================================================== *)
(** * The key validators *)
(* ================================================================== *)

Lemma validateKey_value (U : Util) (key : string) (expectedLength : nat) :
  validateKey key expectedLength =
    Ok (match decodeBase64 key with
        | Ok decoded => length decoded =? expectedLength
        | Throw _ => false
        end).
Proof. unfold validateKey. now destruct (decodeBase64 key). Qed.

(** C10. [validateKey], [validatePublicKey], [validatePrivateKey] and
    [validateSymmetricKey] return a boolean for every input string and
    never throw; the boolean is [false] whenever Base64 decoding of the
    input throws, and otherwise says whether the decoded length is the
    expected one. *)
Theorem validators_total (U : Util) (key : string) :
  (forall expectedLength : nat, exists b : bool, validateKey key expectedLength = Ok b)
  /\ (exists b : bool, validatePublicKey key = Ok b)
  /\ (exists b : bool, validatePrivateKey key = Ok b)
  /\ (exists b : bool, validateSymmetricKey key = Ok b)
  /\ (forall e : error,
        decodeBase64 key = Throw e ->
        (forall expectedLength : nat, validateKey key expectedLength = Ok false)
        /\ validatePublicKey key = Ok false
        /\ validatePrivateKey key = Ok false
        /\ validateSymmetricKey key = Ok false)
  /\ (forall decoded : bytes,
        decodeBase64 key = Ok decoded ->
        (forall expectedLength : nat,
            validateKey key expectedLength = Ok (length decoded =? expectedLength))
        /\ validatePublicKey key = Ok (length decoded =? 32)
        /\ validatePrivateKey key = Ok (length decoded =? 32)
        /\ validateSymmetricKey key = Ok (length decoded =? 32)).
Proof.
  unfold validatePublicKey, validatePrivateKey, validateSymmetricKey.
  repeat split; intros; rewrite ?validateKey_value; eauto;
    match goal with
    | H : decodeBase64 key = _ |- _ => now rewrite H
    end.
Qed.

(* ================================================================== *)
(** * The reference implementations meet the laws *)
(* ================================================================== *)

Module Base64Facts.
Import Base64.
Local Open Scope N_scope.

Lemma below_64 (n : N) : n < 64 -> In n (map N.of_nat (seq 0 64)).
Proof.
  intros Hn. rewrite <- (N2Nat.id n). apply in_map, in_seq. lia.
Qed.

Lemma valueOf_charOf (n : N) : n < 64 -> valueOf (charOf n) = Some n.
Proof.
  intros Hn. apply below_64 in Hn. revert n Hn. apply Forall_forall.
  repeat constructor.
Qed.

Lemma charOf_not_pad (n : N) : n < 64 -> Ascii.eqb (charOf n) padChar = false.
Proof.
  intros Hn. apply below_64 in Hn. revert n Hn. apply Forall_forall.
  repeat constructor.
Qed.

Ltac same_byte := etransitivity; [ | apply byteOfN_to_N ]; f_equal; by_division.

Lemma decode_encode_bytes (bs : bytes) : decode (encode bs) = Some bs.
Proof.
  assert (H : forall n l, (length l <= n)%nat -> decode (encode l) = Some l).
  { induction n as [|n IH].
    - intros [|? ?]; cbn [length]; [ reflexivity | lia ].
    - intros [|a [|b [|c rest]]] Hlen; [ reflexivity | | | ].
      + pose proof (to_N_lt_256 a).
        cbn [encode decode].
        rewrite !valueOf_charOf by by_division.
        rewrite Ascii.eqb_refl. cbn [andb isEmpty].
        do 2 f_equal. same_byte.
      + pose proof (to_N_lt_256 a). pose proof (to_N_lt_256 b).
        cbn [encode decode].
        rewrite !valueOf_charOf by by_division.
        rewrite charOf_not_pad by by_division.
        rewrite Ascii.eqb_refl. cbn [isEmpty].
        f_equal. f_equal; [ | f_equal ].
        * same_byte.
        * same_byte.
      + pose proof (to_N_lt_256 a). pose proof (to_N_lt_256 b).
        pose proof (to_N_lt_256 c).
        cbn [encode decode].
        rewrite !valueOf_charOf by by_division.
        rewrite !charOf_not_pad by by_division.
        rewrite IH by (cbn [length] in Hlen; lia).
        f_equal. f_equal; [ | f_equal; [ | f_equal ] ].
        * same_byte.
        * same_byte.
        * same_byte. }
  now apply (H (length bs)).
Qed.

End Base64Facts.

Lemma referenceUtil_laws : UtilLaws referenceUtil.
Proof. constructor. exact Base64Facts.decode_encode_bytes. Qed.

Module ToyNaClFacts.
Import ToyNaCl.

Lemma byteSub_byteAdd (a b : byte) : byteSub (byteAdd a b) b = a.
Proof.
  pose proof (to_N_lt_256 a). pose proof (to_N_lt_256 b).
  unfold byteSub, byteAdd.
  rewrite to_N_byteOfN by by_division.
  etransitivity; [ | apply byteOfN_to_N ]. f_equal. by_division.
Qed.

Lemma byteAdd_comm (a b : byte) : byteAdd a b = byteAdd b a.
Proof. unfold byteAdd. now rewrite N.add_comm. Qed.

Lemma tag_length (m n k : bytes) : length (tag m n k) = 16.
Proof. unfold tag. now rewrite length_map, length_seq. Qed.

Lemma seal_length (m n k : bytes) : length (seal m n k) = length m + 16.
Proof. unfold seal. rewrite length_app, tag_length, length_map. lia. Qed.

Lemma bytes_eqb_refl (a : bytes) : bytes_eqb a a = true.
Proof. unfold bytes_eqb. now destruct (list_eq_dec Byte.byte_eq_dec a a). Qed.

Lemma open_seal (m n k : bytes) : open (seal m n k) n k = Some m.
Proof.
  unfold open. rewrite seal_length.
  replace (length m + 16 <? 16) with false by (symmetry; apply Nat.ltb_ge; lia).
  unfold seal.
  rewrite skipn_app_exact, firstn_app_exact by apply tag_length.
  rewrite map_map.
  assert (Hm : map (fun b => byteSub (byteAdd b (mask n k)) (mask n k)) m = m).
  { rewrite <- (map_id m) at 2. apply map_ext. intros b. apply byteSub_byteAdd. }
  rewrite Hm. now rewrite bytes_eqb_refl.
Qed.

Lemma open_length (c n k m : bytes) : open c n k = Some m -> length c = length m + 16.
Proof.
  unfold open. destruct (length c <? 16) eqn:E; [ discriminate | ].
  apply Nat.ltb_ge in E.
  destruct (bytes_eqb _ _); [ | discriminate ].
  intros Heq.
  assert (Hm : m = map (fun b => byteSub b (mask n k)) (skipn 16 c)) by congruence.
  rewrite Hm, length_map, length_skipn. lia.
Qed.

Lemma shared_comm (skA skB : bytes) :
  shared (publicOf skB) skA = shared (publicOf skA) skB.
Proof.
  unfold shared. generalize (publicOf skA) (publicOf skB). intros l1.
  induction l1 as [|x l1 IH]; intros [|y l2]; cbn [combine map]; try reflexivity.
  cbn [fst snd]. now rewrite byteAdd_comm, IH.
Qed.

Lemma draw_length (n : nat) (g : N) : length (fst (draw n g)) = n.
Proof. unfold draw. cbn [fst]. now rewrite length_map, length_seq. Qed.

End ToyNaClFacts.

Lemma referenceNaCl_laws : NaClLaws referenceNaCl.
Proof.
  constructor; cbn [randomBytes secretbox secretbox_open box box_open scalarMult_base
                    referenceNaCl].
  - exact ToyNaClFacts.draw_length.
  - intros m n k _ _. apply ToyNaClFacts.seal_length.
  - intros m n k _ _. apply ToyNaClFacts.open_seal.
  - intros m n pk sk _ _ _. apply ToyNaClFacts.seal_length.
  - intros m n skA skB _ _ _.
    rewrite <- ToyNaClFacts.shared_comm. apply ToyNaClFacts.open_seal.
  - intros c n pk sk m _ _ _. apply ToyNaClFacts.open_length.
  - intros sk Hsk. unfold ToyNaCl.publicOf. now rewrite length_map.
Qed.

(* ================================================================== *)
(** * tweetnacl against the published vectors

    The test of [crypto_box] in 'Cryptography in NaCl' and the digest of
    ['abc'] in FIPS 180-4, evaluated on [tweetnacl]. *)
(* ================================================================== *)

Module TweetNaClVectors.
Import Sample.NaClPaper.

Example public_keys :
  @scalarMult_base tweetnacl aliceSecret = alicePublic
  /\ @scalarMult_base tweetnacl bobSecret = bobPublic.
Proof. split; vm_compute; reflexivity. Qed.

Example shared_key :
  TweetNaCl.before bobPublic aliceSecret = sharedKey
  /\ TweetNaCl.before alicePublic bobSecret = sharedKey.
Proof. split; vm_compute; reflexivity. Qed.

Example box_of_message :
  @box tweetnacl message nonce bobPublic aliceSecret = boxed
  /\ @secretbox tweetnacl message nonce sharedKey = boxed.
Proof. split; vm_compute; reflexivity. Qed.

Example box_opens :
  @box_open tweetnacl boxed nonce alicePublic bobSecret = Some message
  /\ @secretbox_open tweetnacl boxed nonce sharedKey = Some message.
Proof. split; vm_compute; reflexivity. Qed.

(** A box with one bit changed, or under another key, is rejected. *)
Example box_rejected :
  @box_open tweetnacl (withBit0Flipped boxed) nonce alicePublic bobSecret = None
  /\ @box_open tweetnacl boxed nonce bobPublic bobSecret = None.
Proof. split; vm_compute; reflexivity. Qed.

Example digest_of_abc : @hash tweetnacl [x61; x62; x63] = abcDigest.
Proof. vm_compute. reflexivity. Qed.

End TweetNaClVectors.

(* ================================================================== *)
(** * Concrete runs on the reference implementations *)
(* ================================================================== *)


Lemma sample_keys_decode :
  @decodeBase64 Sample.util Sample.key = Ok Sample.keyBytes
  /\ @decodeBase64 Sample.util Sample.otherKey = Ok (repeat x08 32)
  /\ @decodeBase64 Sample.util Sample.zeroPayload = Ok (repeat x00 41).
Proof. repeat split; vm_compute; reflexivity. Qed.

(** C1 on the reference implementations: three bytes under the sample key. *)
Lemma decrypt_encrypt_roundtrip_witness :
  exists payload : string,
    fst (@encrypt Sample.util Sample.nacl [x01; x02; x03] Sample.key 5%N) = Ok payload
    /\ @decrypt Sample.util Sample.nacl payload Sample.key = Ok [x01; x02; x03].
Proof.
  apply (@decrypt_encrypt_roundtrip Sample.util Sample.nacl
           referenceUtil_laws referenceNaCl_laws
           [x01; x02; x03] Sample.key Sample.keyBytes 5%N);
    vm_compute; reflexivity.
Defined.

(** C7 on the reference implementations: two calls in a row draw the
    nonces of states 5 and 6, which differ. *)
Lemma encrypt_twice_differs_witness :
  exists p1 p2 : string,
    fst (@encrypt Sample.util Sample.nacl [x01; x02; x03] Sample.key 5%N) = Ok p1
    /\ fst (@encrypt Sample.util Sample.nacl [x01; x02; x03] Sample.key 6%N) = Ok p2
    /\ p1 <> p2.
Proof.
  apply (@encrypt_twice_differs Sample.util Sample.nacl
           referenceUtil_laws referenceNaCl_laws
           [x01; x02; x03] Sample.key Sample.keyBytes 5%N);
    vm_compute; [ reflexivity | reflexivity | discriminate ].
Defined.

(** C5 on the reference implementations: a payload of three bytes. *)
Lemma decrypt_error_order_witness :
  @decrypt Sample.util Sample.nacl "AQID" Sample.key = Throw PayloadTooShort.
Proof.
  refine (proj1 (@decrypt_error_order Sample.util Sample.nacl
                   "AQID" Sample.key [x01; x02; x03] Sample.keyBytes _ _ _) _);
    vm_compute; try reflexivity.
  repeat constructor.
Defined.

(** C5 as stated fails on a version-0 payload: 41 zero bytes pass the
    length check, the version byte 0 does not exceed 1, and the 16 bytes
    after the nonce are no ciphertext the authenticated decryption accepts;
    the code raises 'Nicht unterstuetzte Payload-Version: 0', not the
    decryption failure, and it does so whatever NaCl would answer. *)
Lemma decrypt_version0_counterexample :
  let payloadBytes := repeat x00 41 in
  @decodeBase64 Sample.util Sample.zeroPayload = Ok payloadBytes
  /\ @decodeBase64 Sample.util Sample.key = Ok Sample.keyBytes
  /\ length Sample.keyBytes = 32
  /\ 1 + 24 + 16 <= length payloadBytes
  /\ nth_error payloadBytes 0 = Some x00
  /\ @secretbox_open Sample.nacl (sliceFrom payloadBytes 25) (slice payloadBytes 1 25)
       Sample.keyBytes = None
  /\ @decrypt Sample.util Sample.nacl Sample.zeroPayload Sample.key
     = Throw (UnsupportedVersion x00)
  /\ @decrypt Sample.util Sample.nacl Sample.zeroPayload Sample.key
     <> Throw DecryptionFailed
  /\ (forall NA : NaCl,
        @decrypt Sample.util NA Sample.zeroPayload Sample.key
        = Throw (UnsupportedVersion x00)).
Proof.
  cbv zeta.
  repeat match goal with |- _ /\ _ => split end;
    try (intros; vm_compute; reflexivity).
  vm_compute. discriminate.
Qed.



(** C8 on the reference implementations: a payload that seals 40 bytes. *)
Lemma decryptKeyFromSender_key_length_witness :
  @decryptKeyFromSender Sample.util Sample.nacl
    (Sample.b64 (Sample.sealedFor (repeat x2a 40)))
    (Sample.b64 (Sample.publicOf Sample.aliceSecret)) (Sample.b64 Sample.bobSecret)
  = Throw CorruptKey.
Proof.
  destruct (@decryptKeyFromSender_key_length Sample.util Sample.nacl referenceNaCl_laws
              (Sample.b64 (Sample.sealedFor (repeat x2a 40)))
              (Sample.b64 (Sample.publicOf Sample.aliceSecret))
              (Sample.b64 Sample.bobSecret)
              (Sample.sealedFor (repeat x2a 40))
              (Sample.publicOf Sample.aliceSecret) Sample.bobSecret
              (@decodeBase64_encodeBase64 _ referenceUtil_laws _)
              (@decodeBase64_encodeBase64 _ referenceUtil_laws _)
              (@decodeBase64_encodeBase64 _ referenceUtil_laws _)
              eq_refl eq_refl)
    as [_ Hwrong].
  destruct (Hwrong (repeat x2a 40)) as (_ & Hlong & _);
    [ vm_compute; reflexivity | vm_compute; discriminate | ].
  destruct Hlong as (version & Hversion & Hcorrupt & _);
    [ vm_compute; repeat constructor | ].
  apply Hcorrupt.
  vm_compute in Hversion. injection Hversion as <-. vm_compute. discriminate.
Defined.

(** C8 as stated fails on a payload that seals a 16-byte plaintext: the
    authenticated decryption of its ciphertext succeeds and the plaintext
    is not 32 bytes long, but the payload has 57 bytes, fewer than 73, and
    the code raises 'Payload zu kurz', not the corrupt-key error.  The
    same holds under every implementation that meets the laws of NaCl and
    of Base64. *)
Lemma decryptKeyFromSender_short_counterexample :
  let plaintext := repeat x2a 16 in
  let payloadBytes := Sample.sealedFor plaintext in
  length payloadBytes = 57
  /\ nth_error payloadBytes 0 = Some x01
  /\ @box_open Sample.nacl (sliceFrom payloadBytes 25) (slice payloadBytes 1 25)
       (Sample.publicOf Sample.aliceSecret) Sample.bobSecret = Some plaintext
  /\ length plaintext <> 32
  /\ @decryptKeyFromSender Sample.util Sample.nacl (Sample.b64 payloadBytes)
       (Sample.b64 (Sample.publicOf Sample.aliceSecret)) (Sample.b64 Sample.bobSecret)
     = Throw PayloadTooShort
  /\ @decryptKeyFromSender Sample.util Sample.nacl (Sample.b64 payloadBytes)
       (Sample.b64 (Sample.publicOf Sample.aliceSecret)) (Sample.b64 Sample.bobSecret)
     <> Throw CorruptKey
  /\ (forall (U : Util) (NA : NaCl), UtilLaws U -> NaClLaws NA ->
      let sealed :=
        box plaintext Sample.nonce (scalarMult_base Sample.bobSecret) Sample.aliceSecret in
      box_open sealed Sample.nonce (scalarMult_base Sample.aliceSecret) Sample.bobSecret
        = Some plaintext
      /\ decryptKeyFromSender
           (encodeBase64 (versionByte :: Sample.nonce ++ sealed))
           (encodeBase64 (scalarMult_base Sample.aliceSecret))
           (encodeBase64 Sample.bobSecret)
         = Throw PayloadTooShort).
Proof.
  cbv zeta.
  repeat match goal with |- _ /\ _ => split end;
    try (vm_compute; reflexivity).
  - vm_compute. discriminate.
  - vm_compute. discriminate.
  - intros U NA UL NL. cbv zeta. split.
    + now apply box_open_box.
    + apply decryptKeyFromSender_sealed_short;
        try reflexivity; try (now apply scalarMult_base_length).
      cbn. lia.
Qed.

(** C6 on the reference implementations: three members, as in the
    repository's test. *)
Lemma encryptGalleryKeyForMembers_grants_witness :
  let members :=
    [("user1"%string, Sample.bobSecret); ("user2"%string, Sample.carolSecret);
     ("user3"%string, Sample.eveSecret)] in
  exists grants : list Grant,
    fst (@encryptGalleryKeyForMembers Sample.util Sample.nacl Sample.key
           (map (@recipientOf Sample.util Sample.nacl) members)
           (Sample.b64 Sample.aliceSecret) 5%N) = Ok grants
    /\ Forall2
         (fun member grant =>
            grantUserId grant = fst member
            /\ @decryptKeyFromSender Sample.util Sample.nacl (encryptedGalleryKey grant)
                 (Sample.b64 (Sample.publicOf Sample.aliceSecret))
                 (Sample.b64 (snd member))
               = Ok (Sample.b64 Sample.keyBytes))
         members grants.
Proof.
  cbv zeta.
  apply (proj1 (proj2 (@encryptGalleryKeyForMembers_grants Sample.util Sample.nacl
                         referenceUtil_laws referenceNaCl_laws
                         Sample.key (Sample.b64 Sample.aliceSecret) 5%N)));
    try (vm_compute; reflexivity).
  repeat constructor.
Defined.

(* ================================================================== *)
(** * Strings: trimming, splitting and lower-casing *)
(* ================================================================== *)

Module JsStringFacts.
Import JsString Shape.

Lemma eqb_eq (a b : jsstring) : eqb a b = true <-> a = b.
Proof.
  revert b. induction a as [|x a IH]; intros [|y b]; cbn [eqb];
    try (split; [ discriminate | congruence ]); [ now split | ].
  rewrite andb_true_iff, N.eqb_eq, IH. split; [ intros [-> ->] | intros [= -> ->] ]; auto.
Qed.

Lemma eqb_refl (a : jsstring) : eqb a a = true.
Proof. now apply eqb_eq. Qed.

(** ** [trim] *)

Lemma trimStart_noLeadingBlank (s : jsstring) : noLeadingBlank (trimStart s).
Proof.
  induction s as [|c s IH]; cbn [trimStart]; [ exact I | ].
  destruct (isWhiteSpace c) eqn:E; [ exact IH | exact E ].
Qed.

Lemma trimStart_fixed (s : jsstring) : noLeadingBlank s -> trimStart s = s.
Proof. destruct s as [|c s]; cbn [trimStart noLeadingBlank]; [ reflexivity | now intros -> ]. Qed.

Lemma trimEnd_cons (c : codeUnit) (s : jsstring) :
  trimEnd (c :: s) =
    match trimEnd s with
    | [] => if isWhiteSpace c then [] else [c]
    | t => c :: t
    end.
Proof. reflexivity. Qed.

Lemma trimEnd_idempotent (s : jsstring) : trimEnd (trimEnd s) = trimEnd s.
Proof.
  induction s as [|c s IH]; [ reflexivity | ].
  rewrite trimEnd_cons.
  destruct (trimEnd s) as [|d t] eqn:E.
  - destruct (isWhiteSpace c) eqn:Ec; [ reflexivity | ].
    rewrite trimEnd_cons. cbn [trimEnd]. now rewrite Ec.
  - rewrite trimEnd_cons, IH. reflexivity.
Qed.

Lemma trimEnd_noLeadingBlank (s : jsstring) :
  noLeadingBlank s -> noLeadingBlank (trimEnd s).
Proof.
  destruct s as [|c s]; [ trivial | ]. cbn [noLeadingBlank]. intros Hc.
  rewrite trimEnd_cons, Hc. now destruct (trimEnd s).
Qed.

Lemma trim_trimmed (s : jsstring) : trimmed (trim s).
Proof.
  unfold trimmed, trim. split.
  - apply trimEnd_noLeadingBlank, trimStart_noLeadingBlank.
  - apply trimEnd_idempotent.
Qed.

Lemma trimmed_fixed (t : jsstring) : trimmed t -> trim t = t.
Proof. intros [Hlead Hend]. unfold trim. now rewrite (trimStart_fixed _ Hlead). Qed.

Lemma trim_idempotent (s : jsstring) : trim (trim s) = trim s.
Proof. apply trimmed_fixed, trim_trimmed. Qed.

Lemma fixed_trimmed (t : jsstring) : trim t = t -> trimmed t.
Proof. intros <-. apply trim_trimmed. Qed.

(** ** [split(/\s+/)] *)

Lemma splitWsFrom_not_nil (b : bool) (s : jsstring) : splitWsFrom b s <> [].
Proof.
  revert b. induction s as [|c s IH]; intros b; cbn [splitWsFrom]; [ discriminate | ].
  destruct (isWhiteSpace c).
  - destruct b; [ apply IH | discriminate ].
  - unfold consHead. now destruct (splitWsFrom false s).
Qed.

Lemma consHead_cons (c : codeUnit) (toks : list jsstring) :
  toks <> [] -> exists t ts, toks = t :: ts /\ consHead c toks = (c :: t) :: ts.
Proof. destruct toks as [|t ts]; [ contradiction | intros _; now exists t, ts ]. Qed.

Lemma splitWsFrom_blankFree (b : bool) (s : jsstring) : Forall blankFree (splitWsFrom b s).
Proof.
  revert b. induction s as [|c s IH]; intros b; cbn [splitWsFrom].
  - repeat constructor.
  - destruct (isWhiteSpace c) eqn:E.
    + destruct b; [ apply IH | constructor; [ exact I | apply IH ] ].
    + destruct (consHead_cons c (@splitWsFrom_not_nil false s)) as (t & ts & Hsplit & ->).
      specialize (IH false). rewrite Hsplit in IH. inversion IH; subst.
      constructor; [ now split | assumption ].
Qed.

(** In a string without a blank at the end, the pieces after the first
    are not empty; read from inside a separator, none is. *)
Lemma splitWsFrom_pieces_not_empty (s : jsstring) :
  trimEnd s = s ->
  Forall (fun t => t <> []) (tl (splitWsFrom false s))
  /\ (s <> [] -> Forall (fun t => t <> []) (splitWsFrom true s)).
Proof.
  induction s as [|c s IH]; intros Hend.
  - split; [ constructor | congruence ].
  - rewrite trimEnd_cons in Hend.
    assert (Hs : (s = [] /\ isWhiteSpace c = false) \/ (s <> [] /\ trimEnd s = s)).
    { destruct (trimEnd s) as [|d t] eqn:E.
      - left. destruct (isWhiteSpace c); [ discriminate | ].
        injection Hend as <-. now split.
      - right. injection Hend as <-. split; [ discriminate | reflexivity ]. }
    cbn [splitWsFrom].
    destruct Hs as [[-> Hc] | [Hne Hfix]].
    + rewrite Hc. cbn. split; [ constructor | intros _; repeat constructor; discriminate ].
    + destruct (IH Hfix) as [IHtail IHsep]. specialize (IHsep Hne).
      destruct (isWhiteSpace c) eqn:Ec.
      * split; [ exact IHsep | intros _; exact IHsep ].
      * destruct (consHead_cons c (@splitWsFrom_not_nil false s)) as (t & ts & Hsplit & ->).
        rewrite Hsplit in IHtail. cbn [tl] in *.
        split; [ exact IHtail | intros _; constructor; [ discriminate | exact IHtail ] ].
Qed.

(** The pieces of a trimmed string: one empty piece for the empty string,
    pieces without a blank that are not empty otherwise. *)
Lemma splitWs_trimmed (t : jsstring) :
  trimmed t ->
  (t = [] /\ splitWs t = [[]]) \/ (splitWs t <> [] /\ Forall isPiece (splitWs t)).
Proof.
  intros (Hlead & Hend).
  destruct t as [|c s]; [ now left | right ].
  split; [ apply splitWsFrom_not_nil | ].
  assert (Hbf : Forall blankFree (splitWs (c :: s))) by apply splitWsFrom_blankFree.
  assert (Hne : Forall (fun w => w <> []) (splitWs (c :: s))).
  { cbn [noLeadingBlank] in Hlead. unfold splitWs. cbn [splitWsFrom]. rewrite Hlead.
    destruct (consHead_cons c (@splitWsFrom_not_nil false s)) as (w & ws & Hsplit & ->).
    constructor; [ discriminate | ].
    rewrite trimEnd_cons in Hend.
    destruct (trimEnd s) as [|d u] eqn:E.
    - rewrite Hlead in Hend. injection Hend as <-.
      cbn in Hsplit. injection Hsplit as <- <-. constructor.
    - injection Hend as Hs.
      assert (Hfix : trimEnd s = s) by congruence.
      pose proof (proj1 (splitWsFrom_pieces_not_empty Hfix)) as Htl.
      now rewrite Hsplit in Htl. }
  clear - Hbf Hne. unfold isPiece.
  induction Hbf as [|w ws Hw Hws IH]; [ constructor | ].
  inversion Hne; subst.
  constructor; [ auto | now apply IH ].
Qed.

(** ** [join(' ')] of pieces *)

Lemma join_cons2 (w v : jsstring) (ws : list jsstring) :
  join [space] (w :: v :: ws) = w ++ space :: join [space] (v :: ws).
Proof. reflexivity. Qed.

Lemma join_pieces_trimmed (ws : list jsstring) :
  ws <> [] -> Forall isPiece ws ->
  join [space] ws <> [] /\ trimmed (join [space] ws).
Proof.
  intros Hne Hall. induction Hall as [|w ws Hw Hws IH]; [ contradiction | clear Hne ].
  destruct Hw as (Hw_ne & Hw_bf).
  destruct w as [|c w]; [ contradiction | ].
  destruct ws as [|v ws].
  - cbn [join]. split; [ discriminate | ].
    unfold trimmed. split; [ apply Hw_bf | ].
    clear - Hw_bf. revert c Hw_bf. induction w as [|d w IHw]; intros c [Hc Hrest].
    + cbn. now rewrite Hc.
    + rewrite trimEnd_cons, (IHw d Hrest). reflexivity.
  - destruct IH as (IHne & IHlead & IHend); [ discriminate | ].
    rewrite join_cons2. set (r := join [space] (v :: ws)) in *.
    split; [ discriminate | ].
    unfold trimmed. split; [ apply Hw_bf | ].
    assert (Hgen : forall a : jsstring, trimEnd (a ++ space :: r) = a ++ space :: r).
    { induction a as [|d a IHa].
      - cbn [app]. rewrite trimEnd_cons, IHend.
        destruct r; [ contradiction | reflexivity ].
      - cbn [app]. rewrite trimEnd_cons, IHa.
        destruct a; reflexivity. }
    apply Hgen.
Qed.

Lemma splitWsFrom_word_prefix (w rest : jsstring) :
  blankFree w -> w <> [] ->
  forall b, splitWsFrom b (w ++ space :: rest) = w :: splitWsFrom true rest.
Proof.
  induction w as [|c w IH]; intros Hbf Hne b; [ contradiction | ].
  destruct Hbf as [Hc Hbf]. cbn [app splitWsFrom]. rewrite Hc.
  destruct w as [|d w].
  - cbn [app splitWsFrom]. reflexivity.
  - rewrite (IH Hbf) by discriminate. reflexivity.
Qed.

Lemma splitWsFrom_single_word (w : jsstring) :
  blankFree w -> w <> [] -> forall b, splitWsFrom b w = [w].
Proof.
  induction w as [|c w IH]; intros Hbf Hne b; [ contradiction | ].
  destruct Hbf as [Hc Hbf]. cbn [splitWsFrom]. rewrite Hc.
  destruct w as [|d w]; [ reflexivity | ].
  rewrite (IH Hbf) by discriminate. reflexivity.
Qed.

Lemma splitWsFrom_join_pieces (ws : list jsstring) :
  ws <> [] -> Forall isPiece ws ->
  forall b, splitWsFrom b (join [space] ws) = ws.
Proof.
  intros Hne Hall. induction Hall as [|w ws Hw Hws IH]; [ contradiction | clear Hne ].
  destruct Hw as (Hw_ne & Hw_bf). intros b.
  destruct ws as [|v ws].
  - cbn [join]. now apply splitWsFrom_single_word.
  - rewrite join_cons2.
    rewrite splitWsFrom_word_prefix by assumption.
    f_equal. apply IH. discriminate.
Qed.

(** ** Code units of the pieces *)

Lemma splitWsFrom_units (P : codeUnit -> Prop) (s : jsstring) :
  Forall P s -> forall b, Forall (Forall P) (splitWsFrom b s).
Proof.
  induction 1 as [|c s Hc Hs IH]; intros b; cbn [splitWsFrom]; [ repeat constructor | ].
  destruct (isWhiteSpace c).
  - destruct b; [ apply IH | constructor; [ constructor | apply IH ] ].
  - destruct (consHead_cons c (@splitWsFrom_not_nil false s)) as (t & ts & Hsplit & ->).
    specialize (IH false). rewrite Hsplit in IH. inversion IH; subst.
    constructor; [ now constructor | assumption ].
Qed.

Lemma join_units (P : codeUnit -> Prop) (ws : list jsstring) :
  P space -> Forall (Forall P) ws -> Forall P (join [space] ws).
Proof.
  intros Hsp Hall. induction Hall as [|w ws Hw Hws IH]; [ constructor | ].
  destruct ws as [|v ws]; [ exact Hw | ].
  rewrite join_cons2. apply Forall_app. split; [ exact Hw | now constructor ].
Qed.

Lemma trimStart_units (P : codeUnit -> Prop) (s : jsstring) :
  Forall P s -> Forall P (trimStart s).
Proof.
  induction 1 as [|c s Hc Hs IH]; cbn [trimStart]; [ constructor | ].
  destruct (isWhiteSpace c); [ exact IH | now constructor ].
Qed.

Lemma trimEnd_units (P : codeUnit -> Prop) (s : jsstring) :
  Forall P s -> Forall P (trimEnd s).
Proof.
  induction 1 as [|c s Hc Hs IH]; [ constructor | ].
  rewrite trimEnd_cons. destruct (trimEnd s).
  - destruct (isWhiteSpace c); repeat constructor; assumption.
  - now constructor.
Qed.

Lemma trim_units (P : codeUnit -> Prop) (s : jsstring) :
  Forall P s -> Forall P (trim s).
Proof. intros H. now apply trimEnd_units, trimStart_units. Qed.

(** ** ASCII strings *)

Lemma isAscii_Forall (s : jsstring) : isAscii s = true <-> Forall (fun c => (c < 128)%N) s.
Proof.
  unfold isAscii. rewrite forallb_forall, Forall_forall.
  split; intros H c Hc; specialize (H c Hc); now apply N.ltb_lt.
Qed.

Lemma asciiLower_ascii (c : codeUnit) : (c < 128)%N -> (asciiLower c < 128)%N.
Proof.
  unfold asciiLower. intros H.
  destruct ((65 <=? c)%N && (c <=? 90)%N) eqn:E; [ | exact H ].
  apply andb_true_iff in E. destruct E as [_ E]. apply N.leb_le in E. lia.
Qed.

Lemma asciiLower_idempotent (c : codeUnit) : asciiLower (asciiLower c) = asciiLower c.
Proof.
  unfold asciiLower.
  destruct ((65 <=? c)%N && (c <=? 90)%N) eqn:E; [ | now rewrite E ].
  apply andb_true_iff in E. destruct E as [E _]. apply N.leb_le in E.
  replace (c + 32 <=? 90)%N with false by (symmetry; apply N.leb_gt; lia).
  now rewrite andb_false_r.
Qed.

Ltac settle_comparisons :=
  repeat match goal with
         | |- context [(?a <=? ?b)%N] =>
             first [ replace (a <=? b)%N with false by (symmetry; apply N.leb_gt; lia)
                   | replace (a <=? b)%N with true by (symmetry; apply N.leb_le; lia) ]
         | |- context [(?a =? ?b)%N] =>
             replace (a =? b)%N with false by (symmetry; apply N.eqb_neq; lia)
         end.

Lemma isWhiteSpace_letter (c : codeUnit) : (65 <= c <= 122)%N -> isWhiteSpace c = false.
Proof. intros H. unfold isWhiteSpace. settle_comparisons. reflexivity. Qed.

Lemma isWhiteSpace_asciiLower (c : codeUnit) : isWhiteSpace (asciiLower c) = isWhiteSpace c.
Proof.
  unfold asciiLower.
  destruct ((65 <=? c)%N && (c <=? 90)%N) eqn:E; [ | reflexivity ].
  apply andb_true_iff in E. destruct E as [E1 E2].
  apply N.leb_le in E1. apply N.leb_le in E2.
  rewrite !isWhiteSpace_letter by lia. reflexivity.
Qed.

Lemma isAscii_trim (s : jsstring) : isAscii s = true -> isAscii (trim s) = true.
Proof. rewrite !isAscii_Forall. apply trim_units. Qed.

Lemma isAscii_lower (s : jsstring) : isAscii s = true -> isAscii (map asciiLower s) = true.
Proof.
  rewrite !isAscii_Forall. intros H. apply Forall_map.
  revert H. apply Forall_impl. exact asciiLower_ascii.
Qed.

Lemma isAscii_join_splitWs (s : jsstring) :
  isAscii s = true -> isAscii (join [space] (splitWs s)) = true.
Proof.
  rewrite !isAscii_Forall. intros H.
  apply join_units; [ reflexivity | now apply splitWsFrom_units ].
Qed.

(** ** Lower-casing *)

Section Engine.

Context {E : Unicode} {EL : UnicodeLaws E}.

Lemma toLowerCase_nil : toLowerCase [] = [].
Proof. now rewrite toLowerCase_ascii. Qed.

Lemma toLowerCase_join (ws : list jsstring) :
  toLowerCase (join [space] ws) = join [space] (map toLowerCase ws).
Proof.
  induction ws as [|w ws IH]; [ apply toLowerCase_nil | ].
  destruct ws as [|v ws]; [ reflexivity | ].
  rewrite join_cons2, toLowerCase_space, IH. reflexivity.
Qed.

Lemma trim_toLowerCase_shape (s : jsstring) : trimmedLower (toLowerCase (trim s)).
Proof.
  destruct (fixed_trimmed (toLowerCase_trimmed (trim_idempotent s))) as [Hlead Hend].
  repeat split; [ exact Hlead | exact Hend | apply toLowerCase_idempotent ].
Qed.

Lemma trimmedLower_fixed (t : jsstring) : trimmedLower t -> toLowerCase (trim t) = t.
Proof.
  intros (Hlead & Hend & Hlow).
  now rewrite (@trimmed_fixed t (conj Hlead Hend)).
Qed.

(** The pieces of a trimmed, lower-case string: one empty piece for the
    empty string, words otherwise. *)
Lemma splitWs_trimmedLower (t : jsstring) :
  trimmedLower t ->
  (t = [] /\ splitWs t = [[]]) \/ (splitWs t <> [] /\ Forall isWord (splitWs t)).
Proof.
  intros (Hlead & Hend & Hlow).
  destruct (@splitWs_trimmed t (conj Hlead Hend)) as [Hnil | [Hne Hpieces]];
    [ now left | right ].
  split; [ exact Hne | ].
  pose proof (toLowerCase_pieces Hlow) as Hlo.
  clear - Hpieces Hlo. unfold isWord.
  induction Hpieces as [|w ws [Hw1 Hw2] Hws IH]; [ constructor | ].
  inversion Hlo; subst. constructor; [ auto | now apply IH ].
Qed.

Lemma isWord_isPiece (ws : list jsstring) : Forall isWord ws -> Forall isPiece ws.
Proof. apply Forall_impl. intros w (Hne & Hbf & _). now split. Qed.

Lemma join_words_shape (ws : list jsstring) :
  ws <> [] -> Forall isWord ws ->
  join [space] ws <> [] /\ trimmedLower (join [space] ws).
Proof.
  intros Hne Hall.
  destruct (join_pieces_trimmed Hne (isWord_isPiece Hall)) as (Hjoin & Hlead & Hend).
  split; [ exact Hjoin | ].
  repeat split; [ exact Hlead | exact Hend | ].
  rewrite toLowerCase_join. f_equal.
  clear - Hall. induction Hall as [|w ws (_ & _ & Hw) Hws IH]; [ reflexivity | ].
  cbn [map]. now rewrite Hw, IH.
Qed.

Lemma splitWsFrom_join_words (ws : list jsstring) :
  ws <> [] -> Forall isWord ws ->
  forall b, splitWsFrom b (join [space] ws) = ws.
Proof. intros Hne Hall. apply splitWsFrom_join_pieces; [ exact Hne | now apply isWord_isPiece ]. Qed.

End Engine.

End JsStringFacts.

Lemma asciiUnicode_laws : JsString.UnicodeLaws asciiUnicode.
Proof.
  constructor; cbn [JsString.toLowerCase JsString.normalizeNFKD asciiUnicode].
  - reflexivity.
  - reflexivity.
  - intros s. rewrite map_map. apply map_ext. exact JsStringFacts.asciiLower_idempotent.
  - intros a b. now rewrite map_app.
  - intros s Hs. apply Forall_forall. intros t Ht.
    assert (Hunits : Forall (fun c => JsString.asciiLower c = c) s).
    { clear - Hs. induction s as [|c s IH]; [ constructor | ].
      cbn [map] in Hs. injection Hs as Hc Hs. constructor; [ exact Hc | now apply IH ]. }
    pose proof (JsStringFacts.splitWsFrom_units Hunits false) as Hall.
    rewrite Forall_forall in Hall. specialize (Hall t Ht).
    clear - Hall. induction Hall as [|c t Hc Ht IH]; [ reflexivity | ].
    cbn [map]. now rewrite Hc, IH.
  - intros s Hs. apply JsStringFacts.fixed_trimmed in Hs. destruct Hs as [Hlead Hend].
    apply JsStringFacts.trimmed_fixed. split.
    + destruct s as [|c s]; [ exact I | ]. cbn [map Shape.noLeadingBlank] in *.
      now rewrite JsStringFacts.isWhiteSpace_asciiLower.
    + clear Hlead. induction s as [|c s IH]; [ reflexivity | ].
      cbn [map]. rewrite JsStringFacts.trimEnd_cons in *.
      destruct (JsString.trimEnd s) as [|d t] eqn:Es.
      * rewrite JsStringFacts.isWhiteSpace_asciiLower.
        destruct (JsString.isWhiteSpace c); [ discriminate | ].
        injection Hend as <-. reflexivity.
      * injection Hend as Hs. rewrite IH by congruence.
        rewrite <- Hs. reflexivity.
Qed.

(* ================================================================== *)
(** * Recovery phrases: normalisation, validation and derivation *)
(* ================================================================== *)

Module SeedPhraseFacts.
Import JsString Shape JsStringFacts SeedPhrase.

Section Engine.

Context {E : Unicode} {EL : UnicodeLaws E}.

(** A normalised phrase is left alone by [trim] and [toLowerCase], and
    splits at blanks into the pieces it was joined from. *)
Lemma normalizeSeedPhrase_fixed (phrase : jsstring) :
  toLowerCase (trim (normalizeSeedPhrase phrase)) = normalizeSeedPhrase phrase
  /\ splitWs (normalizeSeedPhrase phrase) = splitWs (toLowerCase (trim phrase)).
Proof.
  unfold normalizeSeedPhrase.
  destruct (splitWs_trimmedLower (trim_toLowerCase_shape phrase))
    as [[_ ->] | [Hne Hwords]].
  - cbn [join]. change (trim []) with (@nil codeUnit). now rewrite toLowerCase_nil.
  - destruct (join_words_shape Hne Hwords) as [_ Hshape].
    split; [ now apply trimmedLower_fixed | ].
    now apply splitWsFrom_join_words.
Qed.


Section Wordlist.

Variable wordlist : list jsstring.

(** Validation of a normalised phrase: twelve pieces, and [bip39] accepts
    the phrase as it stands. *)
Lemma validateSeedPhrase_normalized (phrase : jsstring) :
  validateSeedPhrase wordlist (normalizeSeedPhrase phrase) =
    (length (splitWs (toLowerCase (trim phrase))) =? SEED_PHRASE_CONFIG.WORD_COUNT)%nat
    && Bip39.validateMnemonic wordlist (normalizeSeedPhrase phrase).
Proof.
  destruct (normalizeSeedPhrase_fixed phrase) as [Hfix Hsplit].
  unfold validateSeedPhrase. rewrite Hfix, Hsplit.
  now destruct (length _ =? _)%nat.
Qed.

(** [seedPhraseToEntropy] throws 'Ungueltige Seed Phrase' exactly when
    [validateSeedPhrase] rejects the normalised phrase, and otherwise
    returns the bytes of the entropy [bip39] decodes. *)
Lemma seedPhraseToEntropy_cases (phrase : jsstring) :
  (validateSeedPhrase wordlist (normalizeSeedPhrase phrase) = false ->
   seedPhraseToEntropy wordlist phrase = Throw InvalidPhrase)
  /\ (validateSeedPhrase wordlist (normalizeSeedPhrase phrase) = true ->
      exists entropyHex : string,
        Bip39.mnemonicToEntropy wordlist (normalizeSeedPhrase phrase) = Ok entropyHex
        /\ seedPhraseToEntropy wordlist phrase = Ok (Bip39.fromHex entropyHex)).
Proof.
  unfold seedPhraseToEntropy. split; intros Hvalid; rewrite Hvalid; [ reflexivity | ].
  rewrite validateSeedPhrase_normalized in Hvalid.
  apply andb_true_iff in Hvalid. destruct Hvalid as [_ Hbip].
  unfold Bip39.validateMnemonic in Hbip.
  destruct (Bip39.mnemonicToEntropy wordlist (normalizeSeedPhrase phrase)) as [hex|];
    [ | discriminate ].
  now exists hex.
Qed.

(** ** ASCII phrases: every engine gives what the ASCII one gives *)

Lemma toLowerCase_trim_ascii (phrase : jsstring) :
  isAscii phrase = true ->
  toLowerCase (trim phrase) = map asciiLower (trim phrase).
Proof. intros H. apply toLowerCase_ascii. now apply isAscii_trim. Qed.

Lemma normalizeSeedPhrase_ascii (phrase : jsstring) :
  isAscii phrase = true ->
  normalizeSeedPhrase phrase = @normalizeSeedPhrase asciiUnicode phrase.
Proof.
  intros H. unfold normalizeSeedPhrase. now rewrite toLowerCase_trim_ascii.
Qed.

Lemma isAscii_normalizeSeedPhrase (phrase : jsstring) :
  isAscii phrase = true -> isAscii (@normalizeSeedPhrase asciiUnicode phrase) = true.
Proof.
  intros H. unfold normalizeSeedPhrase. cbn [toLowerCase asciiUnicode].
  now apply isAscii_join_splitWs, isAscii_lower, isAscii_trim.
Qed.

Lemma mnemonicToEntropy_ascii (mnemonic : jsstring) :
  isAscii mnemonic = true ->
  Bip39.mnemonicToEntropy wordlist mnemonic
  = @Bip39.mnemonicToEntropy asciiUnicode wordlist mnemonic.
Proof.
  intros H. unfold Bip39.mnemonicToEntropy, Bip39.normalize.
  now rewrite normalizeNFKD_ascii.
Qed.

Lemma validateSeedPhrase_ascii (phrase : jsstring) :
  isAscii phrase = true ->
  validateSeedPhrase wordlist phrase = @validateSeedPhrase asciiUnicode wordlist phrase.
Proof.
  intros H. unfold validateSeedPhrase, Bip39.validateMnemonic.
  rewrite toLowerCase_trim_ascii by exact H.
  rewrite mnemonicToEntropy_ascii by now apply isAscii_lower, isAscii_trim.
  reflexivity.
Qed.

Lemma seedPhraseToEntropy_ascii (phrase : jsstring) :
  isAscii phrase = true ->
  seedPhraseToEntropy wordlist phrase = @seedPhraseToEntropy asciiUnicode wordlist phrase.
Proof.
  intros H. unfold seedPhraseToEntropy.
  rewrite normalizeSeedPhrase_ascii by exact H.
  pose proof (isAscii_normalizeSeedPhrase phrase H) as Hn.
  now rewrite validateSeedPhrase_ascii, mnemonicToEntropy_ascii.
Qed.

Lemma getWordAtPosition_ascii (phrase : jsstring) (position : Z) :
  isAscii phrase = true ->
  getWordAtPosition phrase position = @getWordAtPosition asciiUnicode phrase position.
Proof.
  intros H. unfold getWordAtPosition. now rewrite normalizeSeedPhrase_ascii.
Qed.

End Wordlist.

End Engine.

(** ** A wordlist known by its first entries *)

Lemma indexOf_app (word : jsstring) (known rest : list jsstring) :
  existsb (eqb word) known = true ->
  Bip39.indexOf word (known ++ rest) = Bip39.indexOf word known.
Proof.
  induction known as [|w known IH]; cbn [existsb Bip39.indexOf app]; [ discriminate | ].
  destruct (eqb w word) eqn:Ew; [ reflexivity | ].
  destruct (eqb word w) eqn:Ew'.
  - apply eqb_eq in Ew'. subst. now rewrite eqb_refl in Ew.
  - cbn [orb]. intros H. now rewrite IH.
Qed.

Lemma wordsBits_app (known rest words : list jsstring) :
  forallb (fun word => existsb (eqb word) known) words = true ->
  Bip39.wordsBits (known ++ rest) words = Bip39.wordsBits known words.
Proof.
  induction words as [|w words IH]; cbn [forallb Bip39.wordsBits]; [ reflexivity | ].
  intros H. apply andb_true_iff in H. destruct H as [Hw Hwords].
  unfold Bip39.wordBits. now rewrite (indexOf_app _ _ rest Hw), (IH Hwords).
Qed.

(** A mnemonic made of known words decodes the same way under every
    wordlist that starts with the known ones. *)
Lemma mnemonicToEntropy_app {E : Unicode} (known rest : list jsstring) (mnemonic : jsstring) :
  forallb (fun word => existsb (eqb word) known)
    (splitChar space (Bip39.normalize mnemonic)) = true ->
  Bip39.mnemonicToEntropy (known ++ rest) mnemonic = Bip39.mnemonicToEntropy known mnemonic.
Proof.
  intros H. unfold Bip39.mnemonicToEntropy.
  now rewrite (wordsBits_app _ rest _ H).
Qed.

End SeedPhraseFacts.

Section DeriveFacts.

Context {U : Util} {NA : NaCl} {E : JsString.Unicode} {EL : JsString.UnicodeLaws E}.

Lemma deriveKeyPairFromSeedPhrase_ascii
    (wordlist : list JsString.jsstring) (seedPhrase : JsString.jsstring) :
  JsString.isAscii seedPhrase = true ->
  deriveKeyPairFromSeedPhrase wordlist seedPhrase
  = @deriveKeyPairFromSeedPhrase U NA asciiUnicode wordlist seedPhrase.
Proof.
  intros H. unfold deriveKeyPairFromSeedPhrase.
  rewrite SeedPhraseFacts.normalizeSeedPhrase_ascii by exact H.
  pose proof (SeedPhraseFacts.isAscii_normalizeSeedPhrase seedPhrase H) as Hn.
  now rewrite SeedPhraseFacts.validateSeedPhrase_ascii,
    SeedPhraseFacts.seedPhraseToEntropy_ascii.
Qed.

End DeriveFacts.


(** C4, at the input on which the code departs from it.  Under every
    wordlist that starts with the English one's first four words, the test
    phrase written with two blanks after its first word has twelve words
    for [split(/\s+/)] and thirteen pieces for [bip39]'s [split(' ')]:
    [validateSeedPhrase] returns [false] on it, while [seedPhraseToEntropy]
    normalises it first, accepts it and returns its sixteen zero bytes. *)
Theorem seedPhraseToEntropy_accepts_unvalidated
    (E : JsString.Unicode) (EL : JsString.UnicodeLaws E) (rest : list JsString.jsstring) :
  let wordlist := Sample.englishHead ++ rest in
  length (JsString.splitWs Sample.spacedPhrase) = 12
  /\ length (JsString.splitChar JsString.space Sample.spacedPhrase) = 13
  /\ SeedPhrase.normalizeSeedPhrase Sample.spacedPhrase = Sample.testPhrase
  /\ SeedPhrase.validateSeedPhrase wordlist Sample.spacedPhrase = false
  /\ SeedPhrase.validateSeedPhrase wordlist Sample.testPhrase = true
  /\ SeedPhrase.seedPhraseToEntropy wordlist Sample.spacedPhrase
     = Ok (repeat x00 16).
Proof.
  intros wordlist.
  rewrite (SeedPhraseFacts.normalizeSeedPhrase_ascii Sample.spacedPhrase eq_refl).
  rewrite (@SeedPhraseFacts.validateSeedPhrase_ascii E EL wordlist Sample.spacedPhrase eq_refl).
  rewrite (@SeedPhraseFacts.validateSeedPhrase_ascii E EL wordlist Sample.testPhrase eq_refl).
  rewrite (SeedPhraseFacts.seedPhraseToEntropy_ascii wordlist Sample.spacedPhrase eq_refl).
  clear E EL.
  assert (Hnorm : @SeedPhrase.normalizeSeedPhrase asciiUnicode Sample.spacedPhrase
                  = Sample.testPhrase) by (vm_compute; reflexivity).
  assert (Hsame : @JsString.toLowerCase asciiUnicode (JsString.trim Sample.testPhrase)
                  = Sample.testPhrase) by (vm_compute; reflexivity).
  assert (Hbip : @Bip39.mnemonicToEntropy asciiUnicode wordlist Sample.testPhrase
                 = Ok "00000000000000000000000000000000"%string).
  { subst wordlist. rewrite SeedPhraseFacts.mnemonicToEntropy_app;
      vm_compute; reflexivity. }
  assert (Hvalid : @SeedPhrase.validateSeedPhrase asciiUnicode wordlist Sample.testPhrase
                   = true).
  { unfold SeedPhrase.validateSeedPhrase, Bip39.validateMnemonic.
    rewrite Hsame, Hbip. vm_compute. reflexivity. }
  assert (Hentropy : @SeedPhrase.seedPhraseToEntropy asciiUnicode wordlist
                       Sample.spacedPhrase = Ok (repeat x00 16)).
  { unfold SeedPhrase.seedPhraseToEntropy. rewrite Hnorm, Hvalid, Hbip.
    vm_compute. reflexivity. }
  repeat split; try assumption; vm_compute; reflexivity.
Qed.


Lemma seedPhraseToEntropy_accepts_unvalidated_witness :
  @SeedPhrase.validateSeedPhrase Sample.unicode Sample.englishHead Sample.spacedPhrase = false
  /\ @SeedPhrase.seedPhraseToEntropy Sample.unicode Sample.englishHead Sample.spacedPhrase
     = Ok (repeat x00 16).
Proof.
  pose proof (@seedPhraseToEntropy_accepts_unvalidated Sample.unicode asciiUnicode_laws [])
    as H.
  cbv zeta in H. rewrite app_nil_r in H.
  destruct H as (_ & _ & _ & Hrejected & _ & Hentropy).
  split; assumption.
Defined.

(* ================================================================== *)
(** * The repository's unit tests, replayed on the embedding

    The expectations of the package's test file ('Crypto Unit Tests')
    that involve no randomness, evaluated on the definitions above.  The
    phrases of the tests are ASCII, so the results hold for every engine;
    the tests on keys run on the reference implementations. *)
(* ================================================================== *)

Module ReplayedTests.
Import SeedPhrase SeedPhraseFacts.

Section Engine.

Context {E : JsString.Unicode} {EL : JsString.UnicodeLaws E}.

(** 'trimmt Whitespace' *)
Example normalize_trims : normalizeSeedPhrase (Sample.js "  word1 word2  ") = Sample.js "word1 word2".
Proof. now rewrite normalizeSeedPhrase_ascii. Qed.

(** 'konvertiert zu Lowercase' *)
Example normalize_lowers :
  normalizeSeedPhrase (Sample.js "WORD1 Word2 wOrD3") = Sample.js "word1 word2 word3".
Proof. now rewrite normalizeSeedPhrase_ascii. Qed.

(** 'normalisiert mehrfache Leerzeichen' *)
Example normalize_collapses :
  normalizeSeedPhrase (Sample.js "word1   word2    word3") = Sample.js "word1 word2 word3".
Proof. now rewrite normalizeSeedPhrase_ascii. Qed.

(** 'lehnt zu kurze Phrase ab' *)
Example validate_rejects_short (wordlist : list JsString.jsstring) :
  validateSeedPhrase wordlist (Sample.js "one two three") = false.
Proof. now rewrite validateSeedPhrase_ascii. Qed.

(** 'lehnt ungueltige Woerter ab' *)
Example validate_rejects_unknown_words :
  validateSeedPhrase Sample.englishHead
    (Sample.js "xyz abc def ghi jkl mno pqr stu vwx yza bcd efg") = false.
Proof. rewrite validateSeedPhrase_ascii by reflexivity. vm_compute. reflexivity. Qed.

(** 'lehnt falsche Checksum ab' *)
Example validate_rejects_checksum :
  validateSeedPhrase Sample.englishHead
    (Sample.js "abandon abandon abandon abandon abandon abandon abandon abandon abandon abandon abandon abandon")
  = false.
Proof. rewrite validateSeedPhrase_ascii by reflexivity. vm_compute. reflexivity. Qed.

(** 'akzeptiert bekannte gueltige Phrase' *)
Example validate_accepts_test_vector :
  validateSeedPhrase Sample.englishHead Sample.testPhrase = true.
Proof. rewrite validateSeedPhrase_ascii by reflexivity. vm_compute. reflexivity. Qed.

(** 'gibt korrektes Wort zurueck' *)
Example word_at_position :
  let phrase := Sample.js "one two three four five six seven eight nine ten eleven twelve" in
  getWordAtPosition phrase 1 = Ok (Sample.js "one")
  /\ getWordAtPosition phrase 5 = Ok (Sample.js "five")
  /\ getWordAtPosition phrase 12 = Ok (Sample.js "twelve").
Proof.
  intros phrase.
  repeat split; rewrite getWordAtPosition_ascii by reflexivity; reflexivity.
Qed.

(** 'wirft Fehler bei ungueltiger Position' *)
Example word_at_position_out_of_range (phrase : JsString.jsstring) :
  getWordAtPosition phrase 0 = Throw OutOfRange
  /\ getWordAtPosition phrase 13 = Throw OutOfRange.
Proof. split; reflexivity. Qed.

(** 'wirft Fehler bei ungueltiger Phrase' *)
Example derive_rejects_invalid (U : Util) (NA : NaCl) (wordlist : list JsString.jsstring) :
  deriveKeyPairFromSeedPhrase wordlist (Sample.js "invalid phrase") = Throw InvalidPhrase.
Proof. now rewrite deriveKeyPairFromSeedPhrase_ascii. Qed.

(** 'generiert KeyPair aus Seed Phrase', on the reference implementations. *)
Example derive_gives_valid_keys :
  match @deriveKeyPairFromSeedPhrase Sample.util Sample.nacl E
          Sample.englishHead Sample.testPhrase with
  | Ok keyPair =>
      @validatePublicKey Sample.util (publicKey keyPair) = Ok true
      /\ @validatePrivateKey Sample.util (privateKey keyPair) = Ok true
  | Throw _ => False
  end.
Proof.
  rewrite deriveKeyPairFromSeedPhrase_ascii by reflexivity.
  vm_compute. split; reflexivity.
Qed.

(** 'Normalisierung funktioniert', on the reference implementations. *)
Example derive_ignores_case_and_blanks :
  @deriveKeyPairFromSeedPhrase Sample.util Sample.nacl E Sample.englishHead
    (Sample.js "  ABANDON Abandon abandon abandon abandon abandon abandon abandon abandon abandon abandon ABOUT  ")
  = @deriveKeyPairFromSeedPhrase Sample.util Sample.nacl E Sample.englishHead
      Sample.testPhrase.
Proof.
  rewrite (deriveKeyPairFromSeedPhrase_ascii Sample.englishHead Sample.testPhrase eq_refl).
  rewrite deriveKeyPairFromSeedPhrase_ascii by reflexivity.
  vm_compute. reflexivity.
Qed.

End Engine.

(** 'gibt korrekte Version zurueck', on the reference implementations. *)
Example payload_version_of_encrypt :
  match fst (@encrypt Sample.util Sample.nacl [x01; x02; x03] Sample.key 5%N) with
  | Ok payload => @getPayloadVersion Sample.util payload = Ok x01
  | Throw _ => False
  end.
Proof. vm_compute. reflexivity. Qed.

End ReplayedTests.

(* ================================================================== *)
(** * The quiz positions *)
(* ================================================================== *)

Module QuizFacts.
Import SeedPhrase.
Local Open Scope Z_scope.

Lemma existsb_eqb_In (x : Z) (l : list Z) : existsb (Z.eqb x) l = true <-> In x l.
Proof.
  rewrite existsb_exists. split.
  - intros (y & Hin & Heq). apply Z.eqb_eq in Heq. now subst.
  - intros Hin. exists x. split; [ assumption | apply Z.eqb_refl ].
Qed.

Lemma setAdd_In (x y : Z) (l : list Z) : In y (setAdd x l) <-> y = x \/ In y l.
Proof.
  unfold setAdd. destruct (existsb (Z.eqb x) l) eqn:E.
  - apply existsb_eqb_In in E. split; [ auto | intros [-> | H]; assumption ].
  - rewrite in_app_iff. cbn [In]. intuition congruence.
Qed.

Lemma setAdd_NoDup (x : Z) (l : list Z) : NoDup l -> NoDup (setAdd x l).
Proof.
  intros Hl. unfold setAdd. destruct (existsb (Z.eqb x) l) eqn:E; [ assumption | ].
  assert (Hx : ~ In x l).
  { intros Hin. apply existsb_eqb_In in Hin. congruence. }
  apply NoDup_app; [ assumption | repeat constructor; easy | ].
  intros y Hy [<- | []]. contradiction.
Qed.


Lemma allPositions_In (p : Z) : In p allPositions <-> 1 <= p <= 12.
Proof.
  unfold allPositions. rewrite in_map_iff. split.
  - intros (n & <- & Hn). apply in_seq in Hn. lia.
  - intros Hp. exists (Z.to_nat p). split; [ lia | apply in_seq; lia ].
Qed.

Lemma allPositions_NoDup : NoDup allPositions.
Proof.
  unfold allPositions. apply NoDup_map_NoDup_ForallPairs; [ | apply seq_NoDup ].
  intros a b _ _. lia.
Qed.

(** A set of positions has at most twelve elements. *)
Lemma positions_at_most_12 (l : list Z) :
  NoDup l -> Forall (fun p => 1 <= p <= 12) l -> (length l <= 12)%nat.
Proof.
  intros Hnd Hall.
  change 12%nat with (length allPositions).
  apply NoDup_incl_length; [ assumption | ].
  intros p Hp. apply allPositions_In. revert p Hp. now apply Forall_forall.
Qed.

(** A set of fewer than twelve positions misses one. *)
Lemma position_missing (l : list Z) :
  NoDup l -> (length l < 12)%nat -> exists p, 1 <= p <= 12 /\ ~ In p l.
Proof.
  intros Hnd Hlen.
  destruct (Forall_dec (fun p => In p l) (fun p => in_dec Z.eq_dec p l) allPositions)
    as [Hall | Hnot].
  - exfalso.
    assert (H12 : (length allPositions <= length l)%nat).
    { apply NoDup_incl_length; [ apply allPositions_NoDup | ].
      intros p. revert p. now apply Forall_forall. }
    change (length allPositions) with 12%nat in H12. lia.
  - apply Exists_Forall_neg in Hnot; [ | intros p; destruct (in_dec Z.eq_dec p l); auto ].
    apply Exists_exists in Hnot. destruct Hnot as (p & Hp & Hmiss).
    exists p. split; [ now apply allPositions_In | assumption ].
Qed.

Section Loop.

Variable randomIndex : nat -> Z.
Hypothesis randomIndex_range : forall i, 0 <= randomIndex i < 12.
Variable count : Z.


Lemma drawnSoFar_start : drawnSoFar randomIndex 0 [].
Proof.
  split; [ constructor | ]. intros p. split; [ intros [] | intros (j & Hj & _); lia ].
Qed.

Lemma drawnSoFar_step (calls : nat) (positions : list Z) :
  drawnSoFar randomIndex calls positions ->
  drawnSoFar randomIndex (S calls) (setAdd (randomIndex calls + 1) positions).
Proof.
  intros [Hnd Hin]. split; [ now apply setAdd_NoDup | ].
  intros p. rewrite setAdd_In, Hin. split.
  - intros [-> | (j & Hj & ->)]; [ exists calls | exists j ]; split; auto; lia.
  - intros (j & Hj & ->).
    destruct (Nat.eq_dec j calls) as [-> | Hne]; [ now left | right ].
    exists j. split; [ lia | reflexivity ].
Qed.

Lemma drawnSoFar_range (calls : nat) (positions : list Z) :
  drawnSoFar randomIndex calls positions -> Forall (fun p => 1 <= p <= 12) positions.
Proof.
  intros [_ Hin]. apply Forall_forall. intros p Hp.
  apply Hin in Hp. destruct Hp as (j & _ & ->).
  pose proof (randomIndex_range j). lia.
Qed.

Lemma drawnSoFar_size (calls : nat) (positions : list Z) :
  drawnSoFar randomIndex calls positions -> (length positions <= 12)%nat.
Proof.
  intros H. apply positions_at_most_12; [ apply H | now apply drawnSoFar_range with calls ].
Qed.

(** More fuel does not change a result. *)
Lemma quizLoop_more_fuel (fuel extra calls : nat) (positions l : list Z) :
  quizLoop fuel randomIndex calls positions count = Some l ->
  quizLoop (fuel + extra) randomIndex calls positions count = Some l.
Proof.
  revert calls positions. induction fuel as [|fuel IH]; intros calls positions.
  - cbn [quizLoop Nat.add]. destruct extra; cbn [quizLoop];
      destruct (Z.of_nat (length positions) <? count); trivial; discriminate.
  - cbn [quizLoop Nat.add].
    destruct (Z.of_nat (length positions) <? count); [ apply IH | trivial ].
Qed.

(** With more than twelve positions asked for, the loop never ends. *)
Lemma quizLoop_never_ends (fuel calls : nat) (positions : list Z) :
  12 < count ->
  drawnSoFar randomIndex calls positions ->
  quizLoop fuel randomIndex calls positions count = None.
Proof.
  intros Hcount. revert calls positions.
  induction fuel as [|fuel IH]; intros calls positions Hinv;
    pose proof (drawnSoFar_size Hinv) as Hsize;
    cbn [quizLoop];
    replace (Z.of_nat (length positions) <? count) with true
      by (symmetry; apply Z.ltb_lt; lia).
  - reflexivity.
  - apply IH. now apply drawnSoFar_step.
Qed.

Hypothesis every_position_drawn : forall p, 0 <= p < 12 -> exists i, randomIndex i = p.

(** From a set that is not full, the loop body runs until a new position
    is drawn: [n] evaluations later the set has one element more. *)
Lemma quizLoop_next_position (distance : nat) :
  forall (calls : nat) (positions : list Z),
    drawnSoFar randomIndex calls positions ->
    Z.of_nat (length positions) < count ->
    (exists i, (calls <= i <= calls + distance)%nat
               /\ ~ In (randomIndex i + 1) positions) ->
    exists (n : nat) (positions' : list Z),
      (forall fuel,
          quizLoop (n + fuel) randomIndex calls positions count
          = quizLoop fuel randomIndex (calls + n) positions' count)
      /\ drawnSoFar randomIndex (calls + n) positions'
      /\ length positions' = S (length positions).
Proof.
  induction distance as [|distance IH]; intros calls positions Hinv Hsize (i & Hi & Hnew).
  - assert (i = calls) by lia. subst i.
    exists 1%nat, (positions ++ [randomIndex calls + 1]).
    assert (Hadd : setAdd (randomIndex calls + 1) positions
                   = positions ++ [randomIndex calls + 1]).
    { unfold setAdd. destruct (existsb _ positions) eqn:E; [ | reflexivity ].
      apply existsb_eqb_In in E. contradiction. }
    split; [ | split ].
    + intros fuel. cbn [quizLoop Nat.add].
      replace (Z.of_nat (length positions) <? count) with true
        by (symmetry; apply Z.ltb_lt; lia).
      now rewrite Hadd, Nat.add_1_r.
    + rewrite Nat.add_1_r, <- Hadd. now apply drawnSoFar_step.
    + rewrite length_app. cbn [length]. lia.
  - destruct (in_dec Z.eq_dec (randomIndex calls + 1) positions) as [Hold | Hfresh].
    + assert (Hsame : setAdd (randomIndex calls + 1) positions = positions).
      { unfold setAdd. apply existsb_eqb_In in Hold. now rewrite Hold. }
      assert (Hinv' : drawnSoFar randomIndex (S calls) positions).
      { rewrite <- Hsame. now apply drawnSoFar_step. }
      destruct (IH (S calls) positions Hinv' Hsize) as (n & positions' & Hrun & Hinv'' & Hlen).
      { exists i. split; [ | assumption ].
        assert (i <> calls) by (intros ->; contradiction). lia. }
      exists (S n), positions'. split; [ | split ].
      * intros fuel. cbn [quizLoop Nat.add].
        replace (Z.of_nat (length positions) <? count) with true
          by (symmetry; apply Z.ltb_lt; lia).
        rewrite Hsame, Hrun. f_equal. lia.
      * now replace (calls + S n)%nat with (S calls + n)%nat by lia.
      * assumption.
    + apply (IH calls positions Hinv Hsize).
      exists calls. split; [ lia | assumption ].
Qed.

(** The loop ends, with exactly [count] positions, whenever [count] is
    at most twelve. *)
Lemma quizLoop_ends (missing : nat) :
  forall (calls : nat) (positions : list Z),
    count <= 12 ->
    drawnSoFar randomIndex calls positions ->
    Z.of_nat (length positions) <= Z.max 0 count ->
    Z.max 0 count - Z.of_nat (length positions) <= Z.of_nat missing ->
    exists (fuel calls' : nat) (l : list Z),
      quizLoop fuel randomIndex calls positions count = Some l
      /\ drawnSoFar randomIndex calls' l
      /\ Z.of_nat (length l) = Z.max 0 count.
Proof.
  induction missing as [|missing IH]; intros calls positions Hcount Hinv Hle Hmissing.
  - exists 0%nat, calls, positions. cbn [quizLoop].
    replace (Z.of_nat (length positions) <? count) with false
      by (symmetry; apply Z.ltb_ge; lia).
    repeat split; try apply Hinv. lia.
  - destruct (Z.ltb_spec (Z.of_nat (length positions)) count) as [Hlt | Hge].
    + destruct (@position_missing positions) as (p & Hp & Hmiss);
        [ apply Hinv | lia | ].
      destruct (every_position_drawn (p := p - 1)) as (i & Hi); [ lia | ].
      assert (Hlate : (calls <= i)%nat).
      { destruct (Nat.le_gt_cases calls i) as [|Hearly]; [ assumption | exfalso ].
        apply Hmiss. apply Hinv. exists i. split; [ assumption | lia ]. }
      destruct (@quizLoop_next_position (i - calls) calls positions Hinv Hlt)
        as (n & positions' & Hrun & Hinv' & Hlen).
      { exists i. split; [ lia | ]. now replace (randomIndex i + 1) with p by lia. }
      destruct (IH (calls + n)%nat positions' Hcount Hinv') as (fuel & calls' & l & Hl & Hfinal);
        [ lia | lia | ].
      exists (n + fuel)%nat, calls', l. now rewrite Hrun.
    + exists 0%nat, calls, positions. cbn [quizLoop].
      replace (Z.of_nat (length positions) <? count) with false
        by (symmetry; apply Z.ltb_ge; lia).
      repeat split; try apply Hinv. lia.
Qed.

End Loop.

(** ** Sorting *)

Lemma insertSorted_perm (x : Z) (l : list Z) : Permutation (insertSorted x l) (x :: l).
Proof.
  induction l as [|y l IH]; cbn [insertSorted]; [ reflexivity | ].
  destruct (x <=? y); [ reflexivity | ].
  rewrite IH. apply perm_swap.
Qed.

Lemma sortAscending_perm (l : list Z) : Permutation (sortAscending l) l.
Proof.
  induction l as [|x l IH]; cbn [sortAscending fold_right]; [ reflexivity | ].
  fold (sortAscending l). rewrite insertSorted_perm. now constructor.
Qed.

Lemma insertSorted_sorted (x : Z) (l : list Z) :
  StronglySorted Z.le l -> StronglySorted Z.le (insertSorted x l).
Proof.
  induction 1 as [|y l Hl IH Hy]; cbn [insertSorted]; [ repeat constructor | ].
  destruct (Z.leb_spec x y) as [Hxy | Hxy].
  - constructor; [ now constructor | ].
    constructor; [ assumption | ].
    eapply Forall_impl; [ | exact Hy ]. cbn. lia.
  - constructor; [ assumption | ].
    rewrite insertSorted_perm. constructor; [ lia | assumption ].
Qed.

Lemma sortAscending_sorted (l : list Z) : StronglySorted Z.le (sortAscending l).
Proof.
  induction l as [|x l IH]; cbn [sortAscending fold_right]; [ constructor | ].
  now apply insertSorted_sorted.
Qed.

Lemma sorted_NoDup_strict (l : list Z) :
  StronglySorted Z.le l -> NoDup l -> StronglySorted Z.lt l.
Proof.
  induction 1 as [|x l Hl IH Hx]; intros Hnd; [ constructor | ].
  inversion Hnd as [|? ? Hnotin Hnd']; subst.
  constructor; [ now apply IH | ].
  apply Forall_forall. intros y Hy.
  assert (x <= y) by (revert y Hy; now apply Forall_forall).
  assert (x <> y) by (intros ->; contradiction). lia.
Qed.

End QuizFacts.

(** C9. Let the [i]-th evaluation of
    [Math.floor(Math.random() * WORD_COUNT)] be [randomIndex i], a number
    from 0 to 11.  For every [count] from 0 to 12, if the random source
    shows each of the twelve values at some point, the loop of
    [generateQuizPositions count] ends and the function returns [count]
    positions in [1, 12], distinct and in ascending order.  For every
    [count] above 12 the loop never ends, whatever the random source
    does. *)
Theorem generateQuizPositions_termination
    (randomIndex : nat -> Z) (count : Z) :
  (forall i, (0 <= randomIndex i < 12)%Z) ->
  ((0 <= count <= 12)%Z ->
   (forall p, (0 <= p < 12)%Z -> exists i, randomIndex i = p) ->
   exists (fuel : nat) (positions : list Z),
     (forall extra : nat,
         SeedPhrase.generateQuizPositions (fuel + extra) randomIndex count = Some positions)
     /\ Z.of_nat (length positions) = count
     /\ StronglySorted Z.lt positions
     /\ Forall (fun p => (1 <= p <= 12)%Z) positions)
  /\ ((12 < count)%Z ->
      forall fuel : nat, SeedPhrase.generateQuizPositions fuel randomIndex count = None).
Proof.
  intros Hrange. split.
  - intros Hcount Hfair.
    destruct (@QuizFacts.quizLoop_ends randomIndex count Hfair
                (Z.to_nat count) 0%nat [])
      as (fuel & calls' & l & Hl & Hinv & Hlen);
      [ lia | apply QuizFacts.drawnSoFar_start | cbn; lia | cbn; lia | ].
    exists fuel, (SeedPhrase.sortAscending l).
    pose proof (QuizFacts.sortAscending_perm l) as Hperm.
    split; [ | split; [ | split ] ].
    + intros extra. unfold SeedPhrase.generateQuizPositions.
      now rewrite (@QuizFacts.quizLoop_more_fuel _ _ _ extra _ _ _ Hl).
    + rewrite (Permutation_length Hperm). lia.
    + apply QuizFacts.sorted_NoDup_strict; [ apply QuizFacts.sortAscending_sorted | ].
      eapply Permutation_NoDup; [ symmetry; exact Hperm | apply Hinv ].
    + eapply Permutation_Forall; [ symmetry; exact Hperm | ].
      exact (@QuizFacts.drawnSoFar_range randomIndex Hrange calls' l Hinv).
  - intros Hcount fuel. unfold SeedPhrase.generateQuizPositions.
    rewrite (@QuizFacts.quizLoop_never_ends randomIndex Hrange count fuel 0 []);
      [ reflexivity | assumption | apply QuizFacts.drawnSoFar_start ].
Qed.

(** C9 for the source that draws [5 i mod 12] at its [i]-th evaluation:
    three positions are found, thirteen never. *)
Lemma generateQuizPositions_termination_witness :
  (exists (fuel : nat) (positions : list Z),
      (forall extra : nat,
          SeedPhrase.generateQuizPositions (fuel + extra)
            (fun i => Z.of_nat (Nat.modulo (5 * i) 12)) 3 = Some positions)
      /\ Z.of_nat (length positions) = 3%Z
      /\ StronglySorted Z.lt positions
      /\ Forall (fun p => (1 <= p <= 12)%Z) positions)
  /\ (forall fuel : nat,
        SeedPhrase.generateQuizPositions fuel
          (fun i => Z.of_nat (Nat.modulo (5 * i) 12)) 13 = None).
Proof.
  assert (Hrange : forall i, (0 <= Z.of_nat (Nat.modulo (5 * i) 12) < 12)%Z).
  { intros i. pose proof (Nat.mod_upper_bound (5 * i) 12). lia. }
  split.
  - apply (proj1 (@generateQuizPositions_termination
                    (fun i => Z.of_nat (Nat.modulo (5 * i) 12)) 3 Hrange)); [ lia | ].
    intros p Hp. exists (Nat.modulo (5 * Z.to_nat p) 12).
    assert (Hcases : In p (map Z.of_nat (seq 0 12))).
    { apply in_map_iff. exists (Z.to_nat p). split; [ lia | apply in_seq; lia ]. }
    cbn in Hcases. intuition (subst; reflexivity).
  - apply (proj2 (@generateQuizPositions_termination
                    (fun i => Z.of_nat (Nat.modulo (5 * i) 12)) 13 Hrange)). lia.
Defined.
